(** * FaultTolerantHdfsAccessor: retry decoration of an HDFS accessor

  A shallow embedding of [FaultTolerantHdfsAccessor.go].  Every method of
  the accessor is a [for { ... }] loop around one call of the wrapped
  accessor; the loop talks to three collaborators that live in other
  files of the repository (the wrapped [HdfsAccessor], the [RetryPolicy]
  with its per-call [Op], and the error classifier).  The methods are
  therefore modelled as interaction trees over the calls they make, and
  the collaborators as an environment that answers those calls. *)

From ITree Require Import ITree ITreeFacts.
From Paco Require Import paco.
From Stdlib Require Import List String Ascii NArith ZArith Lia Bool Arith.
Import ITreeNotations ListNotations.
Local Open Scope itree_scope.
Local Open Scope string_scope.
Local Open Scope list_scope.

Set Implicit Arguments.
Set Warnings "-register-all".

(* ===================================================================== *)
(** * Data model *)
(* ===================================================================== *)

(** Opaque payloads, references and the error classifier: everything the
  accessor receives from other files of the repository and only passes
  along.  [Attrs] is the metadata struct, [Err] the non-nil values of Go's
  [error] interface, [AccessorRef] a value of the [HdfsAccessor]
  interface, [PolicyPtr] a [*RetryPolicy], [OpPtr] the [*Op] that
  [StartOperation] hands out; the three stream types are the handles
  produced by implementations other than the fault-tolerant wrappers.
  [IsSuccessOrBenignError] is the classifier, a pure predicate on error
  values ([None] is Go's [nil]). *)
Class Collaborators : Type := {
  Attrs : Type;
  Err : Type;
  AccessorRef : Type;
  PolicyPtr : Type;
  OpPtr : Type;
  RawReader : Type;
  RawWriter : Type;
  RawRandomReader : Type;
  IsSuccessOrBenignError : option Err -> bool
}.

Section DataModel.

Context `{Collaborators}.

(** Go's [error]: [None] is [nil]. *)
Definition error : Type := option Err.

(** [os.FileMode] is a [uint32]; the accessor only passes it along. *)
Definition FileMode : Type := N.

(** The struct of the source. *)
Record FaultTolerantHdfsAccessor : Type := NewFaultTolerantHdfsAccessor {
  Impl : AccessorRef;
  RetryPolicy : PolicyPtr
}.

(** Modelled from the spec: the struct [FaultTolerantHdfsReader] is
  declared in another file of the repository.  The spec lists its state as
  the file path, the current raw stream, the count of bytes already
  delivered, the accessor used to reopen and the retry policy. *)
Record FaultTolerantHdfsReader (Reader : Type) : Type := MkFaultTolerantHdfsReader {
  rd_Path : string;
  rd_Impl : Reader;
  rd_HdfsAccessor : AccessorRef;
  rd_RetryPolicy : PolicyPtr;
  rd_Offset : Z
}.

(** Values of the [HdfsReader] interface: [nil], a reader of another
  implementation, or the fault-tolerant wrapper. *)
Inductive HdfsReader : Type :=
| ReaderNil
| ReaderOther (r : RawReader)
| ReaderFaultTolerant (r : FaultTolerantHdfsReader HdfsReader).

(** Modelled from the spec: the constructor [NewFaultTolerantHdfsReader] is
  defined in another file of the repository.  It receives the path, the
  raw stream, the accessor and the policy, in the order the source passes
  them, and the reader it builds starts at logical offset 0. *)
Definition NewFaultTolerantHdfsReader (path : string) (impl : HdfsReader)
    (hdfsAccessor : AccessorRef) (retryPolicy : PolicyPtr) : HdfsReader :=
  ReaderFaultTolerant
    {| rd_Path := path; rd_Impl := impl; rd_HdfsAccessor := hdfsAccessor;
       rd_RetryPolicy := retryPolicy; rd_Offset := 0 |}.

(** Modelled from the spec: the struct [FaultTolerantHdfsWriter] is
  declared in another file of the repository.  The source builds it with
  the single field [Impl], and the spec says it holds only the raw stream,
  neither path nor policy. *)
Record FaultTolerantHdfsWriter (Writer : Type) : Type := MkFaultTolerantHdfsWriter {
  wr_Impl : Writer
}.

(** Values of the [HdfsWriter] interface: [nil], a writer of another
  implementation, or the fault-tolerant wrapper. *)
Inductive HdfsWriter : Type :=
| WriterNil
| WriterOther (w : RawWriter)
| WriterFaultTolerant (w : FaultTolerantHdfsWriter HdfsWriter).

(** Values of the [RandomAccessHdfsReader] interface; [None] is [nil]. *)
Definition RandomAccessHdfsReader : Type := option RawRandomReader.

(** The variadic arguments handed to [ShouldRetry] after the format. *)
Inductive FmtArg : Type :=
| ArgString (s : string)
| ArgMode (m : FileMode)
| ArgError (e : error).

(** ** Calls that leave the accessor

    One event per method of the wrapped accessor, plus the two methods
    of the retry machinery.  Each event carries its receiver. *)
Variant hdfsE : Type -> Type :=
| StartOperation (p : PolicyPtr) : hdfsE OpPtr
| ShouldRetry (op : OpPtr) (message : string) (args : list FmtArg) : hdfsE bool
| ImplEnsureConnected (a : AccessorRef) : hdfsE error
| ImplOpenRead (a : AccessorRef) (path : string) : hdfsE (HdfsReader * error)
| ImplOpenReadForRandomAccess (a : AccessorRef) (path : string)
    : hdfsE (RandomAccessHdfsReader * N * error)
| ImplOpenWrite (a : AccessorRef) (path : string) : hdfsE (HdfsWriter * error)
| ImplReadDir (a : AccessorRef) (path : string) : hdfsE (list Attrs * error)
| ImplStat (a : AccessorRef) (path : string) : hdfsE (Attrs * error)
| ImplMkdir (a : AccessorRef) (path : string) (mode : FileMode) : hdfsE error.

(** Go's [a || f()] where [f] has effects: [f] runs only when [a] is
    false. *)
Definition orElse (a : bool) (f : itree hdfsE bool) : itree hdfsE bool :=
  if a then Ret true else f.

(** [!op.ShouldRetry(message, args...)] *)
Definition notShouldRetry (op : OpPtr) (message : string) (args : list FmtArg)
    : itree hdfsE bool :=
  ITree.map negb (ITree.trigger (ShouldRetry op message args)).

(** ** The seven methods

    The body of each [for] loop is one iteration: [inr v] is [return v],
    [inl tt] falls off the end of the body and loops. *)

Definition EnsureConnected (this : FaultTolerantHdfsAccessor) : itree hdfsE error :=
  op <- ITree.trigger (StartOperation (RetryPolicy this)) ;;
  ITree.iter (fun _ : unit =>
    err <- ITree.trigger (ImplEnsureConnected (Impl this)) ;;
    stop <- orElse (IsSuccessOrBenignError err)
              (notShouldRetry op "Connect: %s" [ArgError err]) ;;
    if stop then Ret (inr err) else Ret (inl tt)) tt.

Definition OpenRead (this : FaultTolerantHdfsAccessor) (path : string)
    : itree hdfsE (HdfsReader * error) :=
  op <- ITree.trigger (StartOperation (RetryPolicy this)) ;;
  ITree.iter (fun _ : unit =>
    '(result, err) <- ITree.trigger (ImplOpenRead (Impl this) path) ;;
    match err with
    | None =>
        Ret (inr (NewFaultTolerantHdfsReader path result (Impl this) (RetryPolicy this),
                  None))
    | Some _ =>
        stop <- orElse (IsSuccessOrBenignError err)
                  (notShouldRetry op "[%s] OpenRead: %s" [ArgString path; ArgError err]) ;;
        if stop then Ret (inr (ReaderNil, err)) else Ret (inl tt)
    end) tt.

Definition OpenReadForRandomAccess (this : FaultTolerantHdfsAccessor) (path : string)
    : itree hdfsE (RandomAccessHdfsReader * N * error) :=
  op <- ITree.trigger (StartOperation (RetryPolicy this)) ;;
  ITree.iter (fun _ : unit =>
    '(reader, size, err) <- ITree.trigger (ImplOpenReadForRandomAccess (Impl this) path) ;;
    match err with
    | None => Ret (inr (reader, size, None))
    | Some _ =>
        stop <- orElse (IsSuccessOrBenignError err)
                  (notShouldRetry op "[%s] OpenReadForRandomAccess: %s"
                     [ArgString path; ArgError err]) ;;
        if stop then Ret (inr (None, 0%N, err)) else Ret (inl tt)
    end) tt.

Definition OpenWrite (this : FaultTolerantHdfsAccessor) (path : string)
    : itree hdfsE (HdfsWriter * error) :=
  op <- ITree.trigger (StartOperation (RetryPolicy this)) ;;
  ITree.iter (fun _ : unit =>
    '(result, err) <- ITree.trigger (ImplOpenWrite (Impl this) path) ;;
    match err with
    | None =>
        Ret (inr (WriterFaultTolerant {| wr_Impl := result |}, None))
    | Some _ =>
        stop <- orElse (IsSuccessOrBenignError err)
                  (notShouldRetry op "[%s] OpenWrite: %s" [ArgString path; ArgError err]) ;;
        if stop then Ret (inr (WriterNil, err)) else Ret (inl tt)
    end) tt.

Definition ReadDir (this : FaultTolerantHdfsAccessor) (path : string)
    : itree hdfsE (list Attrs * error) :=
  op <- ITree.trigger (StartOperation (RetryPolicy this)) ;;
  ITree.iter (fun _ : unit =>
    '(result, err) <- ITree.trigger (ImplReadDir (Impl this) path) ;;
    stop <- orElse (IsSuccessOrBenignError err)
              (notShouldRetry op "[%s] ReadDir: %s" [ArgString path; ArgError err]) ;;
    if stop then Ret (inr (result, err)) else Ret (inl tt)) tt.

Definition Stat (this : FaultTolerantHdfsAccessor) (path : string)
    : itree hdfsE (Attrs * error) :=
  op <- ITree.trigger (StartOperation (RetryPolicy this)) ;;
  ITree.iter (fun _ : unit =>
    '(result, err) <- ITree.trigger (ImplStat (Impl this) path) ;;
    stop <- orElse (IsSuccessOrBenignError err)
              (notShouldRetry op "[%s] Stat: %s" [ArgString path; ArgError err]) ;;
    if stop then Ret (inr (result, err)) else Ret (inl tt)) tt.

Definition Mkdir (this : FaultTolerantHdfsAccessor) (path : string) (mode : FileMode)
    : itree hdfsE error :=
  op <- ITree.trigger (StartOperation (RetryPolicy this)) ;;
  ITree.iter (fun _ : unit =>
    err <- ITree.trigger (ImplMkdir (Impl this) path mode) ;;
    stop <- orElse (IsSuccessOrBenignError err)
              (notShouldRetry op "[%s] Mkdir %s: %s"
                 [ArgString path; ArgMode mode; ArgError err]) ;;
    if stop then Ret (inr err) else Ret (inl tt)) tt.

(** ** A uniform view of the seven methods *)

(** Which method is called, with its arguments. *)
Inductive Call : Type :=
| CallEnsureConnected
| CallOpenRead (path : string)
| CallOpenReadForRandomAccess (path : string)
| CallOpenWrite (path : string)
| CallReadDir (path : string)
| CallStat (path : string)
| CallMkdir (path : string) (mode : FileMode).

(** The tuple a method returns, one constructor per signature
    ([EnsureConnected] and [Mkdir] both return a bare [error]). *)
Inductive Outcome : Type :=
| OutError (err : error)
| OutReader (r : HdfsReader) (err : error)
| OutRandom (r : RandomAccessHdfsReader) (size : N) (err : error)
| OutWriter (w : HdfsWriter) (err : error)
| OutDir (l : list Attrs) (err : error)
| OutAttrs (a : Attrs) (err : error).

Definition err_of (o : Outcome) : error :=
  match o with
  | OutError err | OutReader _ err | OutRandom _ _ err
  | OutWriter _ err | OutDir _ err | OutAttrs _ err => err
  end.

(** Dispatch to the method of the fault-tolerant accessor. *)
Definition invoke (this : FaultTolerantHdfsAccessor) (c : Call) : itree hdfsE Outcome :=
  match c with
  | CallEnsureConnected => ITree.map OutError (EnsureConnected this)
  | CallOpenRead path =>
      ITree.map (fun v => OutReader (fst v) (snd v)) (OpenRead this path)
  | CallOpenReadForRandomAccess path =>
      ITree.map (fun v => OutRandom (fst (fst v)) (snd (fst v)) (snd v))
                (OpenReadForRandomAccess this path)
  | CallOpenWrite path =>
      ITree.map (fun v => OutWriter (fst v) (snd v)) (OpenWrite this path)
  | CallReadDir path =>
      ITree.map (fun v => OutDir (fst v) (snd v)) (ReadDir this path)
  | CallStat path =>
      ITree.map (fun v => OutAttrs (fst v) (snd v)) (Stat this path)
  | CallMkdir path mode => ITree.map OutError (Mkdir this path mode)
  end.

(** ** Traces *)

(** One call that left the accessor, with the answer it received. *)
Inductive Entry : Type :=
| Ev (X : Type) (e : hdfsE X) (x : X).

(** For a call of the wrapped accessor: the receiver, the method and
    its arguments. *)
Definition entry_call (en : Entry) : option (AccessorRef * Call) :=
  match en with
  | Ev e _ =>
      match e with
      | StartOperation _ | ShouldRetry _ _ _ => None
      | ImplEnsureConnected a => Some (a, CallEnsureConnected)
      | ImplOpenRead a path => Some (a, CallOpenRead path)
      | ImplOpenReadForRandomAccess a path => Some (a, CallOpenReadForRandomAccess path)
      | ImplOpenWrite a path => Some (a, CallOpenWrite path)
      | ImplReadDir a path => Some (a, CallReadDir path)
      | ImplStat a path => Some (a, CallStat path)
      | ImplMkdir a path mode => Some (a, CallMkdir path mode)
      end
  end.

(** For a call of the wrapped accessor: what it returned. *)
Definition entry_outcome (en : Entry) : option Outcome :=
  match en with
  | Ev e x =>
      match e in hdfsE X return X -> option Outcome with
      | StartOperation _ | ShouldRetry _ _ _ => fun _ => None
      | ImplEnsureConnected _ => fun x => Some (OutError x)
      | ImplOpenRead _ _ => fun x => Some (OutReader (fst x) (snd x))
      | ImplOpenReadForRandomAccess _ _ =>
          fun x => Some (OutRandom (fst (fst x)) (snd (fst x)) (snd x))
      | ImplOpenWrite _ _ => fun x => Some (OutWriter (fst x) (snd x))
      | ImplReadDir _ _ => fun x => Some (OutDir (fst x) (snd x))
      | ImplStat _ _ => fun x => Some (OutAttrs (fst x) (snd x))
      | ImplMkdir _ _ _ => fun x => Some (OutError x)
      end x
  end.

(** For [StartOperation]: the policy asked and the operation handed out. *)
Definition entry_started (en : Entry) : option (PolicyPtr * OpPtr) :=
  match en with
  | Ev e x =>
      match e in hdfsE X return X -> option (PolicyPtr * OpPtr) with
      | StartOperation p => fun op => Some (p, op)
      | _ => fun _ => None
      end x
  end.

(** For [ShouldRetry]: the operation asked and its verdict. *)
Definition entry_retry (en : Entry) : option (OpPtr * bool) :=
  match en with
  | Ev e x =>
      match e in hdfsE X return X -> option (OpPtr * bool) with
      | ShouldRetry op _ _ => fun b => Some (op, b)
      | _ => fun _ => None
      end x
  end.

Definition is_some {A} (o : option A) : bool :=
  match o with Some _ => true | None => false end.

Definition is_underlying (en : Entry) : bool := is_some (entry_outcome en).
Definition is_retry (en : Entry) : bool := is_some (entry_retry en).
Definition is_start (en : Entry) : bool := is_some (entry_started en).

Definition count_underlying (tr : list Entry) : nat := List.length (filter is_underlying tr).
Definition count_retry (tr : list Entry) : nat := List.length (filter is_retry tr).
Definition count_start (tr : list Entry) : nat := List.length (filter is_start tr).

(** What the latest call of the wrapped accessor returned. *)
Fixpoint last_outcome (tr : list Entry) : option Outcome :=
  match tr with
  | [] => None
  | en :: rest =>
      match last_outcome rest with
      | Some o => Some o
      | None => entry_outcome en
      end
  end.

(** ** Running a method against its collaborators *)

(** The collaborators together: given what has happened so far they
    answer the next call.  Any deterministic wrapped accessor and retry
    policy, with whatever state they keep, is such a function. *)
Definition Env : Type := list Entry -> forall X, hdfsE X -> X.

(** Runs [t] for at most [fuel] steps after history [h].  The result is
    [None] while the method has not returned; the list is what happened
    during these steps, oldest first. *)
Fixpoint exec {R} (fuel : nat) (env : Env) (h : list Entry) (t : itree hdfsE R)
    : option R * list Entry :=
  match fuel with
  | O => (None, [])
  | S fuel' =>
      match observe t with
      | RetF r => (Some r, [])
      | TauF t' => exec fuel' env h t'
      | VisF e k =>
          let x := env h _ e in
          let (res, tr) := exec fuel' env (h ++ [Ev e x]) (k x) in
          (res, Ev e x :: tr)
      end
  end.

(** A call observed from its start. *)
Definition run {R} (fuel : nat) (env : Env) (t : itree hdfsE R) : option R * list Entry :=
  exec fuel env [] t.

(** ** Vocabulary of the specification *)

(** A non-nil error that the classifier does not exempt from retry. *)
Definition fails_retryably (o : Outcome) : bool :=
  match err_of o with
  | None => false
  | Some _ => negb (IsSuccessOrBenignError (err_of o))
  end.

(** The verdicts of [ShouldRetry], oldest first. *)
Fixpoint verdicts (tr : list Entry) : list bool :=
  match tr with
  | [] => []
  | en :: rest =>
      match entry_retry en with
      | Some (_, b) => b :: verdicts rest
      | None => verdicts rest
      end
  end.

(** How many retries the policy granted. *)
Definition count_granted (tr : list Entry) : nat :=
  List.length (filter (fun b : bool => b) (verdicts tr)).

(** The verdicts given before the wrapped accessor is called again. *)
Fixpoint verdicts_before_next_call (tr : list Entry) : list bool :=
  match tr with
  | [] => []
  | en :: rest =>
      if is_underlying en then []
      else match entry_retry en with
           | Some (_, b) => b :: verdicts_before_next_call rest
           | None => verdicts_before_next_call rest
           end
  end.

(** The attempts of a trace: what each call of the wrapped accessor
    returned, with the verdicts [ShouldRetry] gave before the next call. *)
Fixpoint attempts_of (tr : list Entry) : list (Outcome * list bool) :=
  match tr with
  | [] => []
  | en :: rest =>
      match entry_outcome en with
      | Some o => (o, verdicts_before_next_call rest) :: attempts_of rest
      | None => attempts_of rest
      end
  end.

(** A statement about the wrapped accessor: whatever it is asked as its
    [(n+1)]-th call of the run, what it returns satisfies [P n]. *)
Definition accessor_behaves (env : Env) (P : nat -> Outcome -> Prop) : Prop :=
  forall h X (e : hdfsE X) o,
    entry_outcome (Ev e (env h X e)) = Some o -> P (count_underlying h) o.

(** A statement about the policy: the [(n+1)]-th verdict of the run
    satisfies [Q n]. *)
Definition policy_behaves (env : Env) (Q : nat -> bool -> Prop) : Prop :=
  forall h op message args,
    Q (count_retry h) (env h bool (ShouldRetry op message args)).

(** The caller receives the successful result [o] of the wrapped
    accessor: as it is, or inside the fault-tolerant stream for the two
    methods that wrap. *)
Definition hands_over (c : Call) (r o : Outcome) : Prop :=
  match c with
  | CallOpenRead _ =>
      exists w, r = OutReader (ReaderFaultTolerant w) None
                /\ o = OutReader (rd_Impl w) None
  | CallOpenWrite _ =>
      exists w, r = OutWriter (WriterFaultTolerant w) None
                /\ o = OutWriter (wr_Impl w) None
  | _ => r = o
  end.

(** Every retry decision of the trace goes through the operation that the
    latest [StartOperation] before it handed out ([cur], if any). *)
Fixpoint retries_through (cur : option OpPtr) (tr : list Entry) : Prop :=
  match tr with
  | [] => True
  | en :: rest =>
      match entry_started en with
      | Some (_, op) => retries_through (Some op) rest
      | None =>
          match entry_retry en with
          | Some (op, _) => cur = Some op /\ retries_through cur rest
          | None => retries_through cur rest
          end
      end
  end.

(** Several calls on the accessor, one after the other. *)
Fixpoint session (this : FaultTolerantHdfsAccessor) (cs : list Call)
    : itree hdfsE (list Outcome) :=
  match cs with
  | [] => Ret []
  | c :: rest =>
      o <- invoke this c ;;
      os <- session this rest ;;
      Ret (o :: os)
  end.

(** ** The common shape of the seven loops

    Every method is the same loop up to the call it makes, the values it
    returns and the text it hands to [ShouldRetry].  [Attempt] records
    what differs; [retry_loop] is the loop.  [invoke_loop] below shows
    that each method of the source runs exactly like [retry_loop] on its
    description. *)
Record Attempt : Type := {
  at_X : Type;
  at_call : hdfsE at_X;
  at_return : at_X -> option Outcome;
  at_message : string;
  at_args : at_X -> list FmtArg;
  at_declined : at_X -> Outcome
}.

Definition ask (A : Attempt) (op : OpPtr) (x : at_X A) : hdfsE bool :=
  ShouldRetry op (at_message A) (at_args A x).

Definition after_ask (A : Attempt) (x : at_X A) (again : bool)
    : itree hdfsE (unit + Outcome) :=
  if again then Ret (inl tt) else Ret (inr (at_declined A x)).

Definition after_call (A : Attempt) (op : OpPtr) (x : at_X A)
    : itree hdfsE (unit + Outcome) :=
  match at_return A x with
  | Some r => Ret (inr r)
  | None => ITree.bind (ITree.trigger (ask A op x)) (after_ask A x)
  end.

Definition retry_body (A : Attempt) (op : OpPtr) (_ : unit)
    : itree hdfsE (unit + Outcome) :=
  ITree.bind (ITree.trigger (at_call A)) (after_call A op).

Definition loop_next (A : Attempt) (op : OpPtr) (lr : unit + Outcome)
    : itree hdfsE Outcome :=
  match lr with
  | inl l => Tau (ITree.iter (retry_body A op) l)
  | inr r => Ret r
  end.

Definition retry_loop (p : PolicyPtr) (A : Attempt) : itree hdfsE Outcome :=
  op <- ITree.trigger (StartOperation p) ;;
  ITree.iter (retry_body A op) tt.

Definition describe (this : FaultTolerantHdfsAccessor) (c : Call) : Attempt :=
  match c with
  | CallEnsureConnected =>
      {| at_call := ImplEnsureConnected (Impl this);
         at_return := fun err =>
           if IsSuccessOrBenignError err then Some (OutError err) else None;
         at_message := "Connect: %s";
         at_args := fun err => [ArgError err];
         at_declined := fun err => OutError err |}
  | CallOpenRead path =>
      {| at_call := ImplOpenRead (Impl this) path;
         at_return := fun v =>
           match snd v with
           | None =>
               Some (OutReader (NewFaultTolerantHdfsReader path (fst v) (Impl this)
                                  (RetryPolicy this)) None)
           | Some _ =>
               if IsSuccessOrBenignError (snd v) then Some (OutReader ReaderNil (snd v))
               else None
           end;
         at_message := "[%s] OpenRead: %s";
         at_args := fun v => [ArgString path; ArgError (snd v)];
         at_declined := fun v => OutReader ReaderNil (snd v) |}
  | CallOpenReadForRandomAccess path =>
      {| at_call := ImplOpenReadForRandomAccess (Impl this) path;
         at_return := fun v =>
           match snd v with
           | None => Some (OutRandom (fst (fst v)) (snd (fst v)) None)
           | Some _ =>
               if IsSuccessOrBenignError (snd v) then Some (OutRandom None 0%N (snd v))
               else None
           end;
         at_message := "[%s] OpenReadForRandomAccess: %s";
         at_args := fun v => [ArgString path; ArgError (snd v)];
         at_declined := fun v => OutRandom None 0%N (snd v) |}
  | CallOpenWrite path =>
      {| at_call := ImplOpenWrite (Impl this) path;
         at_return := fun v =>
           match snd v with
           | None => Some (OutWriter (WriterFaultTolerant {| wr_Impl := fst v |}) None)
           | Some _ =>
               if IsSuccessOrBenignError (snd v) then Some (OutWriter WriterNil (snd v))
               else None
           end;
         at_message := "[%s] OpenWrite: %s";
         at_args := fun v => [ArgString path; ArgError (snd v)];
         at_declined := fun v => OutWriter WriterNil (snd v) |}
  | CallReadDir path =>
      {| at_call := ImplReadDir (Impl this) path;
         at_return := fun v =>
           if IsSuccessOrBenignError (snd v) then Some (OutDir (fst v) (snd v)) else None;
         at_message := "[%s] ReadDir: %s";
         at_args := fun v => [ArgString path; ArgError (snd v)];
         at_declined := fun v => OutDir (fst v) (snd v) |}
  | CallStat path =>
      {| at_call := ImplStat (Impl this) path;
         at_return := fun v =>
           if IsSuccessOrBenignError (snd v) then Some (OutAttrs (fst v) (snd v)) else None;
         at_message := "[%s] Stat: %s";
         at_args := fun v => [ArgString path; ArgError (snd v)];
         at_declined := fun v => OutAttrs (fst v) (snd v) |}
  | CallMkdir path mode =>
      {| at_call := ImplMkdir (Impl this) path mode;
         at_return := fun err =>
           if IsSuccessOrBenignError err then Some (OutError err) else None;
         at_message := "[%s] Mkdir %s: %s";
         at_args := fun err => [ArgString path; ArgMode mode; ArgError err];
         at_declined := fun err => OutError err |}
  end.

(** What a run of the loop looks like after history [h], attempt by
    attempt.  The result is [None] for a run observed before it returns;
    such a run may stop after any call. *)
Inductive Attempts (A : Attempt) (env : Env) (op : OpPtr)
  : list Entry -> option Outcome -> list Entry -> Prop :=
| At_none h : Attempts A env op h None []
| At_called h x :
    x = env h _ (at_call A) ->
    Attempts A env op h None [Ev (at_call A) x]
| At_return h x r :
    x = env h _ (at_call A) ->
    at_return A x = Some r ->
    Attempts A env op h (Some r) [Ev (at_call A) x]
| At_asked h x b :
    x = env h _ (at_call A) ->
    at_return A x = None ->
    b = env (h ++ [Ev (at_call A) x]) _ (ask A op x) ->
    Attempts A env op h None [Ev (at_call A) x; Ev (ask A op x) b]
| At_declined h x :
    x = env h _ (at_call A) ->
    at_return A x = None ->
    env (h ++ [Ev (at_call A) x]) _ (ask A op x) = false ->
    Attempts A env op h (Some (at_declined A x)) [Ev (at_call A) x; Ev (ask A op x) false]
| At_again h x res tr :
    x = env h _ (at_call A) ->
    at_return A x = None ->
    env (h ++ [Ev (at_call A) x]) _ (ask A op x) = true ->
    Attempts A env op (h ++ [Ev (at_call A) x; Ev (ask A op x) true]) res tr ->
    Attempts A env op h res (Ev (at_call A) x :: Ev (ask A op x) true :: tr).

(** A whole call after history [h]: [StartOperation], then the attempts. *)
Inductive CallRun (p : PolicyPtr) (A : Attempt) (env : Env)
  : list Entry -> option Outcome -> list Entry -> Prop :=
| Call_none h : CallRun p A env h None []
| Call_started h op res tr :
    op = env h _ (StartOperation p) ->
    Attempts A env op (h ++ [Ev (StartOperation p) op]) res tr ->
    CallRun p A env h res (Ev (StartOperation p) op :: tr).

End DataModel.

(* ===================================================================== *)
(** * A concrete setting *)
(* ===================================================================== *)

(** Collaborators small enough to run: handles and references are
  numbers, errors are their text, and the classifier exempts [nil] and
  "not found" from retry. *)
Module Example.

Definition collaborators : Collaborators :=
  {| Attrs := nat; Err := string; AccessorRef := nat; PolicyPtr := nat; OpPtr := nat;
     RawReader := nat; RawWriter := nat; RawRandomReader := nat;
     IsSuccessOrBenignError := fun e =>
       match e with
       | None => true
       | Some s => String.eqb s "not found"
       end |}.

#[local] Existing Instance collaborators.

Definition this : FaultTolerantHdfsAccessor := {| Impl := 7; RetryPolicy := 3 |}.

(** The answer to one call, given the operation to hand out, the verdict
    to give and the error to report.  The wrapped accessor returns its
    payload whether or not it reports an error. *)
Definition answer X (e : hdfsE X) (op : OpPtr) (verdict : bool) (err : error) : X :=
  match e in hdfsE X return X with
  | StartOperation _ => op
  | ShouldRetry _ _ _ => verdict
  | ImplEnsureConnected _ => err
  | ImplOpenRead _ _ => (ReaderOther 11, err)
  | ImplOpenReadForRandomAccess _ _ => (Some 12, 4096%N, err)
  | ImplOpenWrite _ _ => (WriterOther 13, err)
  | ImplReadDir _ _ => ([1; 2], err)
  | ImplStat _ _ => (5, err)
  | ImplMkdir _ _ _ => err
  end.

(** The wrapped accessor reports [failure] on its first [fails] calls and
    succeeds afterwards; the policy grants [grants] retries and then
    declines; every [StartOperation] hands out a new operation. *)
Definition scripted (fails : nat) (failure : string) (grants : nat) : Env :=
  fun h X e =>
    answer e (100 + count_start h) (Nat.ltb (count_retry h) grants)
      (if Nat.ltb (count_underlying h) fails then Some failure else None).

(** The wrapped accessor reports [failure] on every call. *)
Definition always_failing (failure : string) (grants : nat) : Env :=
  fun h X e =>
    answer e (100 + count_start h) (Nat.ltb (count_retry h) grants) (Some failure).

(** Two transient failures, then success, under a policy that would
    grant five retries. *)
Definition flaky : Env := scripted 2 "timeout" 5.

(** What a run returned, or [d] if it has not returned. *)
Definition returned {R} (d : R) (x : option R * list Entry) : R :=
  match fst x with
  | Some v => v
  | None => d
  end.

End Example.

(* ===================================================================== *)
(** * Further vocabulary *)
(* ===================================================================== *)

Section Diagnostics.

Context `{Collaborators}.

(** For [ShouldRetry]: the format and the arguments it was given. *)
Definition entry_message (en : Entry) : option (string * list FmtArg) :=
  match en with
  | Ev e _ =>
      match e with
      | ShouldRetry _ message args => Some (message, args)
      | _ => None
      end
  end.

(** The three methods that hand out a stream; they test [err == nil]
    themselves before they ask the classifier. *)
Definition opens_stream (c : Call) : bool :=
  match c with
  | CallOpenRead _ | CallOpenReadForRandomAccess _ | CallOpenWrite _ => true
  | _ => false
  end.

(** What each method tells [ShouldRetry] about an error: the format and the
    arguments, as written at the seven call sites. *)
Definition diagnostic (c : Call) (err : error) : string * list FmtArg :=
  match c with
  | CallEnsureConnected => ("Connect: %s", [ArgError err])
  | CallOpenRead path => ("[%s] OpenRead: %s", [ArgString path; ArgError err])
  | CallOpenReadForRandomAccess path =>
      ("[%s] OpenReadForRandomAccess: %s", [ArgString path; ArgError err])
  | CallOpenWrite path => ("[%s] OpenWrite: %s", [ArgString path; ArgError err])
  | CallReadDir path => ("[%s] ReadDir: %s", [ArgString path; ArgError err])
  | CallStat path => ("[%s] Stat: %s", [ArgString path; ArgError err])
  | CallMkdir path mode =>
      ("[%s] Mkdir %s: %s", [ArgString path; ArgMode mode; ArgError err])
  end.

(** The number of [%] verbs of a format; the formats of this file have no
    escaped percent sign. *)
Fixpoint count_verbs (s : string) : nat :=
  match s with
  | EmptyString => 0
  | String a rest =>
      (if Ascii.eqb a "%"%char then 1 else 0) + count_verbs rest
  end.

(** The shape of the part of a trace that follows [StartOperation]: calls
    of the wrapped accessor and verdicts take turns, starting with a call
    when [call_next] holds, and nothing follows a declined retry. *)
Fixpoint alternates (call_next : bool) (tr : list Entry) : bool :=
  match tr with
  | [] => true
  | en :: rest =>
      if call_next then is_underlying en && alternates false rest
      else match entry_retry en with
           | Some (_, true) => alternates true rest
           | Some (_, false) => match rest with [] => true | _ :: _ => false end
           | None => false
           end
  end.

(** The rule by which an attempt is followed by a question to the policy:
    not after a [nil] error in the methods that test for it, not after an
    error the classifier exempts, and otherwise once. *)
Definition asks_policy (c : Call) (o : Outcome) : bool :=
  match err_of o with
  | None => if opens_stream c then false else negb (IsSuccessOrBenignError None)
  | Some _ => negb (IsSuccessOrBenignError (err_of o))
  end.

End Diagnostics.

Module Stubborn.

#[local] Existing Instance Example.collaborators.

(** The wrapped accessor times out on every call and the policy grants
    every retry. *)
Definition env : Env :=
  fun h X e => Example.answer e (100 + count_start h) true (Some "timeout").

(** "Not found" on every call, next to a payload; a policy that would
    decline. *)
Definition missing : Env := Example.always_failing "not found" 0.

End Stubborn.

(* ===================================================================== *)
(** * Running interaction trees *)
(* ===================================================================== *)

Section Exec.

Context `{Collaborators}.

Lemma exec_S R fuel (env : Env) h (t : itree hdfsE R) :
  exec (S fuel) env h t =
  match observe t with
  | RetF r => (Some r, [])
  | TauF t' => exec fuel env h t'
  | VisF e k =>
      let (res, tr) := exec fuel env (h ++ [Ev e (env h _ e)]) (k (env h _ e)) in
      (res, Ev e (env h _ e) :: tr)
  end.
Proof. reflexivity. Qed.

Lemma exec_observe R (t1 t2 : itree hdfsE R) fuel (env : Env) h :
  observe t1 = observe t2 -> exec fuel env h t1 = exec fuel env h t2.
Proof. intros E. destruct fuel; [reflexivity|]. rewrite !exec_S, E. reflexivity. Qed.

(** A run that has returned is not changed by more fuel. *)
Lemma exec_mono R (t : itree hdfsE R) (env : Env) n :
  forall h r tr m,
    exec n env h t = (Some r, tr) -> n <= m -> exec m env h t = (Some r, tr).
Proof.
  revert t. induction n as [|n IH]; intros t h r tr m E L; [discriminate|].
  destruct m as [|m]; [lia|]. rewrite exec_S in *.
  destruct (observe t) as [r0|t'|X e k].
  - exact E.
  - apply IH with (m := m) in E; [exact E | lia].
  - destruct (exec n env _ (k (env h X e))) as [[r1|] tr1] eqn:E1; [|discriminate].
    apply IH with (m := m) in E1; [|lia]. rewrite E1. exact E.
Qed.

(** The trace of a short run is a prefix of the trace of a longer one. *)
Lemma exec_prefix R (t : itree hdfsE R) (env : Env) n :
  forall h m, n <= m ->
    exists rest, snd (exec m env h t) = snd (exec n env h t) ++ rest.
Proof.
  revert t. induction n as [|n IH]; intros t h m L.
  - exists (snd (exec m env h t)). reflexivity.
  - destruct m as [|m]; [lia|]. rewrite !exec_S.
    destruct (observe t) as [r0|t'|X e k].
    + exists []. reflexivity.
    + apply IH. lia.
    + destruct (IH (k (env h X e)) (h ++ [Ev e (env h X e)]) m) as [rest Hrest]; [lia|].
      destruct (exec m env _ (k (env h X e))) as [res1 tr1].
      destruct (exec n env _ (k (env h X e))) as [res2 tr2].
      simpl in *. exists rest. rewrite Hrest. reflexivity.
Qed.

Lemma observe_bind_cases R Q (t : itree hdfsE R) (k : R -> itree hdfsE Q) :
  observe (ITree.bind t k) =
  match observe t with
  | RetF r => observe (k r)
  | TauF t' => TauF (ITree.bind t' k)
  | VisF e g => VisF e (fun x => ITree.bind (g x) k)
  end.
Proof. rewrite observe_bind. destruct (observe t); reflexivity. Qed.

Lemma exec_map R Q (f : R -> Q) (t : itree hdfsE R) fuel (env : Env) h :
  exec fuel env h (ITree.map f t) =
  (option_map f (fst (exec fuel env h t)), snd (exec fuel env h t)).
Proof.
  revert t h. induction fuel as [|fuel IH]; intros t h; [reflexivity|].
  unfold ITree.map. rewrite !exec_S, observe_bind_cases.
  destruct (observe t) as [r|t'|X e k]; cbn.
  - reflexivity.
  - apply IH.
  - fold (ITree.map f (k (env h X e))). rewrite IH.
    destruct (exec fuel env (h ++ [Ev e (env h X e)]) (k (env h X e))); reflexivity.
Qed.

(** Bisimilar trees whose leaves are related by a function run alike. *)
Lemma exec_eq_itree R Q (f : R -> Q) (t1 : itree hdfsE R) (t2 : itree hdfsE Q) :
  eq_itree (fun r s => s = f r) t1 t2 ->
  forall fuel (env : Env) h,
    exec fuel env h t2 =
    (option_map f (fst (exec fuel env h t1)), snd (exec fuel env h t1)).
Proof.
  intros E fuel. revert t1 t2 E.
  induction fuel as [|fuel IH]; intros t1 t2 E env h; [reflexivity|].
  rewrite !exec_S. punfold E. red in E.
  inversion E; subst; try discriminate.
  - reflexivity.
  - pclearbot. apply IH, REL.
  - specialize (REL (env h u e)). pclearbot. rewrite (IH _ _ REL).
    destruct (exec fuel env (h ++ [Ev e (env h u e)]) (k1 (env h u e))). reflexivity.
Qed.

(** Sequencing: the second part runs on what fuel the first left, after
    the history the first produced. *)
Lemma exec_bind R Q (t : itree hdfsE R) (k : R -> itree hdfsE Q) (env : Env) fuel :
  forall h res tr,
    exec fuel env h (ITree.bind t k) = (res, tr) ->
    (res = None /\ exec fuel env h t = (None, tr)) \/
    (exists r1 tr1 tr2 fuel2,
        fuel2 <= fuel /\ exec fuel env h t = (Some r1, tr1) /\
        exec fuel2 env (h ++ tr1) (k r1) = (res, tr2) /\ tr = tr1 ++ tr2).
Proof.
  revert t. induction fuel as [|fuel IH]; intros t h res tr E.
  - left. cbn in E. inversion E. split; reflexivity.
  - rewrite exec_S, observe_bind_cases in E. rewrite exec_S.
    destruct (observe t) as [r|t'|X e g] eqn:Ot.
    + right. exists r, [], tr, (S fuel). rewrite app_nil_r, exec_S.
      repeat split; [lia | exact E].
    + apply IH in E. destruct E as [[-> E]|(r1 & tr1 & tr2 & f2 & L & E1 & E2 & ->)].
      * left. split; [reflexivity | exact E].
      * right. exists r1, tr1, tr2, f2. repeat split; [lia | exact E1 | exact E2].
    + destruct (exec fuel env _ (ITree.bind (g (env h X e)) k)) as [res' tr'] eqn:E'.
      inversion E; subst res tr. clear E.
      apply IH in E'.
      destruct E' as [[-> E']|(r1 & tr1 & tr2 & f2 & L & E1 & E2 & ->)].
      * left. rewrite E'. split; reflexivity.
      * right. exists r1, (Ev e (env h X e) :: tr1), tr2, f2. rewrite E1.
        repeat split; [lia | ].
        rewrite <- app_assoc in E2. exact E2.
Qed.

End Exec.

(* ===================================================================== *)
(** * The retry loop, attempt by attempt *)
(* ===================================================================== *)

Section Loop.

Context `{Collaborators}.

Lemma observe_loop A op :
  observe (ITree.iter (retry_body A op) tt) =
  VisF (at_call A) (fun x =>
    ITree.bind (ITree.bind (Ret x) (after_call A op)) (loop_next A op)).
Proof. reflexivity. Qed.

Lemma observe_asking A op x :
  observe (ITree.bind (ITree.bind (ITree.trigger (ask A op x)) (after_ask A x))
             (loop_next A op)) =
  VisF (ask A op x) (fun b =>
    ITree.bind (ITree.bind (Ret b) (after_ask A x)) (loop_next A op)).
Proof. reflexivity. Qed.

(** One iteration of the loop, by the fuel that is left for it. *)
Lemma exec_loop_S A (env : Env) op fuel h :
  exec (S fuel) env h (ITree.iter (retry_body A op) tt) =
  let x := env h _ (at_call A) in
  let h1 := h ++ [Ev (at_call A) x] in
  match fuel with
  | O => (None, [Ev (at_call A) x])
  | S fuel1 =>
      match at_return A x with
      | Some r => (Some r, [Ev (at_call A) x])
      | None =>
          let b := env h1 _ (ask A op x) in
          match fuel1 with
          | O => (None, [Ev (at_call A) x; Ev (ask A op x) b])
          | S fuel2 =>
              if b then
                let (res, tr) :=
                  exec fuel2 env (h1 ++ [Ev (ask A op x) b])
                    (ITree.iter (retry_body A op) tt) in
                (res, Ev (at_call A) x :: Ev (ask A op x) b :: tr)
              else (Some (at_declined A x), [Ev (at_call A) x; Ev (ask A op x) b])
          end
      end
  end.
Proof.
  destruct fuel as [|fuel1]; [reflexivity|].
  set (x := env h _ (at_call A)). cbv zeta.
  rewrite exec_S, observe_loop.
  cbv beta iota zeta. fold x.
  rewrite (@exec_observe _ _ _ (ITree.bind (after_call A op x) (loop_next A op)))
    by reflexivity.
  unfold after_call.
  destruct (at_return A x) as [r|]; [reflexivity|].
  rewrite exec_S, observe_asking.
  cbv beta iota zeta.
  set (b := env (h ++ [Ev (at_call A) x]) _ (ask A op x)).
  destruct fuel1 as [|fuel2]; [reflexivity|].
  destruct b; [|reflexivity].
  rewrite (@exec_observe _ _ _ (Tau (ITree.iter (retry_body A op) tt))) by reflexivity.
  rewrite exec_S.
  change (observe (Tau (ITree.iter (retry_body A op) tt)))
    with (@TauF hdfsE Outcome _ (ITree.iter (retry_body A op) tt)).
  cbv beta iota.
  destruct (exec fuel2 env _ (ITree.iter (retry_body A op) tt)). reflexivity.
Qed.

(** Whatever the fuel, a run of the loop is a sequence of attempts. *)
Lemma exec_loop_Attempts A (env : Env) op fuel :
  forall h res tr,
    exec fuel env h (ITree.iter (retry_body A op) tt) = (res, tr) ->
    Attempts A env op h res tr.
Proof.
  induction fuel as [fuel IH] using lt_wf_ind. intros h res tr E.
  destruct fuel as [|fuel]; [inversion E; constructor|].
  rewrite exec_loop_S in E. cbv zeta in E.
  destruct fuel as [|fuel1]; [inversion E; constructor; reflexivity|].
  destruct (at_return A (env h _ (at_call A))) as [r|] eqn:Hret.
  { inversion E. apply At_return; [reflexivity | exact Hret]. }
  destruct fuel1 as [|fuel2].
  { inversion E. apply At_asked; [reflexivity | exact Hret | reflexivity]. }
  destruct (env (h ++ [Ev (at_call A) (env h _ (at_call A))]) _ _) eqn:Hb.
  - destruct (exec fuel2 env _ (ITree.iter (retry_body A op) tt)) as [res' tr'] eqn:E'.
    inversion E; subst res tr. clear E.
    apply At_again; [reflexivity | exact Hret | exact Hb |].
    apply IH in E'; [|lia]. rewrite <- app_assoc in E'. exact E'.
  - inversion E. apply At_declined; [reflexivity | exact Hret | exact Hb].
Qed.

(** A sequence of attempts that returns is a run of the loop. *)
Lemma Attempts_exec A (env : Env) op h r tr :
  Attempts A env op h (Some r) tr ->
  exists n, exec n env h (ITree.iter (retry_body A op) tt) = (Some r, tr).
Proof.
  intros D. remember (Some r) as res eqn:Hres.
  induction D as [h|h x Hx|h x r0 Hx Hret|h x b Hx Hret Hb|h x Hx Hret Hb
                 |h x res tr Hx Hret Hb D IH]; try discriminate.
  - exists 2. rewrite exec_loop_S. cbv zeta. subst x. rewrite Hret. reflexivity.
  - exists 3. rewrite exec_loop_S. cbv zeta. subst x. rewrite Hret, Hb.
    rewrite Hres. reflexivity.
  - destruct (IH Hres) as [n En]. exists (3 + n).
    cbn [Nat.add]. rewrite exec_loop_S. cbv zeta. subst x. rewrite Hret, Hb.
    rewrite <- app_assoc. cbn [app]. rewrite En. reflexivity.
Qed.

Lemma exec_retry_loop_S p A (env : Env) fuel h :
  exec (S fuel) env h (retry_loop p A) =
  let op := env h _ (StartOperation p) in
  let (res, tr) :=
    exec fuel env (h ++ [Ev (StartOperation p) op]) (ITree.iter (retry_body A op) tt) in
  (res, Ev (StartOperation p) op :: tr).
Proof.
  cbv zeta. rewrite exec_S. cbn.
  rewrite (@exec_observe _ _ _ (ITree.iter (retry_body A (env h _ (StartOperation p))) tt))
    by reflexivity.
  reflexivity.
Qed.

Lemma exec_retry_loop_CallRun p A (env : Env) fuel h res tr :
  exec fuel env h (retry_loop p A) = (res, tr) -> CallRun p A env h res tr.
Proof.
  destruct fuel as [|fuel]; intros E; [inversion E; constructor|].
  rewrite exec_retry_loop_S in E. cbv zeta in E.
  destruct (exec fuel env _ (ITree.iter _ tt)) as [res' tr'] eqn:E'.
  inversion E; subst res tr. constructor; [reflexivity|].
  eapply exec_loop_Attempts, E'.
Qed.

Lemma CallRun_exec p A (env : Env) h r tr :
  CallRun p A env h (Some r) tr ->
  exists n, forall fuel, n <= fuel -> exec fuel env h (retry_loop p A) = (Some r, tr).
Proof.
  intros D. inversion D as [|h' op res tr' Hop D' Eh Eres Etr]; subst.
  destruct (Attempts_exec D') as [n En]. exists (S n). intros fuel L.
  apply exec_mono with (n := S n); [|exact L].
  rewrite exec_retry_loop_S. cbv zeta. rewrite En. reflexivity.
Qed.

End Loop.

(* ===================================================================== *)
(** * Each method of the source is the retry loop on its description *)
(* ===================================================================== *)

Section Methods.

Context `{Collaborators}.

Ltac loop_head :=
  eapply (eqit_bind' eq); [reflexivity | intros ? ? <-];
  eapply (eq_itree_iter' eq); [intros [] ? <- | reflexivity];
  unfold retry_body, after_call, after_ask, ask;
  eapply (eqit_bind' eq); [reflexivity | intros v ? <-]; cbn.

Ltac loop_leaf := apply eqit_Ret; constructor; reflexivity.

Ltac loop_tail :=
  destruct (IsSuccessOrBenignError _); cbn;
  [ rewrite bind_ret_l; loop_leaf
  | unfold notShouldRetry; rewrite bind_map;
    eapply (eqit_bind' eq); [reflexivity | intros [] ? <-]; loop_leaf ].

Lemma EnsureConnected_loop this :
  eq_itree (fun r o => o = OutError r) (EnsureConnected this)
    (retry_loop (RetryPolicy this) (describe this CallEnsureConnected)).
Proof. unfold EnsureConnected, retry_loop. loop_head. loop_tail. Qed.

Lemma OpenRead_loop this path :
  eq_itree (fun r o => o = OutReader (fst r) (snd r)) (OpenRead this path)
    (retry_loop (RetryPolicy this) (describe this (CallOpenRead path))).
Proof.
  unfold OpenRead, retry_loop. loop_head.
  destruct v as [result [e|]]; cbn; [loop_tail | loop_leaf].
Qed.

Lemma OpenReadForRandomAccess_loop this path :
  eq_itree (fun r o => o = OutRandom (fst (fst r)) (snd (fst r)) (snd r))
    (OpenReadForRandomAccess this path)
    (retry_loop (RetryPolicy this) (describe this (CallOpenReadForRandomAccess path))).
Proof.
  unfold OpenReadForRandomAccess, retry_loop. loop_head.
  destruct v as [[reader size] [e|]]; cbn; [loop_tail | loop_leaf].
Qed.

Lemma OpenWrite_loop this path :
  eq_itree (fun r o => o = OutWriter (fst r) (snd r)) (OpenWrite this path)
    (retry_loop (RetryPolicy this) (describe this (CallOpenWrite path))).
Proof.
  unfold OpenWrite, retry_loop. loop_head.
  destruct v as [result [e|]]; cbn; [loop_tail | loop_leaf].
Qed.

Lemma ReadDir_loop this path :
  eq_itree (fun r o => o = OutDir (fst r) (snd r)) (ReadDir this path)
    (retry_loop (RetryPolicy this) (describe this (CallReadDir path))).
Proof. unfold ReadDir, retry_loop. loop_head. destruct v as [result err]; cbn. loop_tail. Qed.

Lemma Stat_loop this path :
  eq_itree (fun r o => o = OutAttrs (fst r) (snd r)) (Stat this path)
    (retry_loop (RetryPolicy this) (describe this (CallStat path))).
Proof. unfold Stat, retry_loop. loop_head. destruct v as [result err]; cbn. loop_tail. Qed.

Lemma Mkdir_loop this path mode :
  eq_itree (fun r o => o = OutError r) (Mkdir this path mode)
    (retry_loop (RetryPolicy this) (describe this (CallMkdir path mode))).
Proof. unfold Mkdir, retry_loop. loop_head. loop_tail. Qed.

(** The dispatcher runs exactly like the loop. *)
Lemma invoke_loop this c fuel (env : Env) h :
  exec fuel env h (invoke this c) =
  exec fuel env h (retry_loop (RetryPolicy this) (describe this c)).
Proof.
  destruct c; unfold invoke; rewrite exec_map; symmetry.
  - apply exec_eq_itree, EnsureConnected_loop.
  - apply exec_eq_itree, OpenRead_loop.
  - apply exec_eq_itree, OpenReadForRandomAccess_loop.
  - apply exec_eq_itree, OpenWrite_loop.
  - apply exec_eq_itree, ReadDir_loop.
  - apply exec_eq_itree, Stat_loop.
  - apply exec_eq_itree, Mkdir_loop.
Qed.

(** Every run of a method is [StartOperation] followed by attempts. *)
Lemma invoke_CallRun this c fuel (env : Env) h res tr :
  exec fuel env h (invoke this c) = (res, tr) ->
  CallRun (RetryPolicy this) (describe this c) env h res tr.
Proof. rewrite invoke_loop. apply exec_retry_loop_CallRun. Qed.

(** Conversely, attempts that return are a run of the method. *)
Lemma CallRun_invoke this c (env : Env) h r tr :
  CallRun (RetryPolicy this) (describe this c) env h (Some r) tr ->
  exists n, forall fuel, n <= fuel -> exec fuel env h (invoke this c) = (Some r, tr).
Proof.
  intros D. destruct (CallRun_exec D) as [n Hn]. exists n. intros fuel L.
  rewrite invoke_loop. apply Hn, L.
Qed.

End Methods.

(* ===================================================================== *)
(** * Facts about traces and descriptions *)
(* ===================================================================== *)

Section Facts.

Context `{Collaborators}.

Lemma count_underlying_app tr1 tr2 :
  count_underlying (tr1 ++ tr2) = count_underlying tr1 + count_underlying tr2.
Proof. unfold count_underlying. rewrite filter_app, length_app. reflexivity. Qed.

Lemma count_retry_app tr1 tr2 :
  count_retry (tr1 ++ tr2) = count_retry tr1 + count_retry tr2.
Proof. unfold count_retry. rewrite filter_app, length_app. reflexivity. Qed.

Lemma count_start_app tr1 tr2 :
  count_start (tr1 ++ tr2) = count_start tr1 + count_start tr2.
Proof. unfold count_start. rewrite filter_app, length_app. reflexivity. Qed.

Lemma count_underlying_cons en tr :
  count_underlying (en :: tr) =
  (if is_underlying en then 1 else 0) + count_underlying tr.
Proof. unfold count_underlying. cbn. destruct (is_underlying en); reflexivity. Qed.

Lemma count_retry_cons en tr :
  count_retry (en :: tr) = (if is_retry en then 1 else 0) + count_retry tr.
Proof. unfold count_retry. cbn. destruct (is_retry en); reflexivity. Qed.

Lemma count_start_cons en tr :
  count_start (en :: tr) = (if is_start en then 1 else 0) + count_start tr.
Proof. unfold count_start. cbn. destruct (is_start en); reflexivity. Qed.

(** The call an attempt makes is a call of the wrapped accessor, made
    with the arguments of the caller. *)
Lemma call_entry this c x :
  entry_call (Ev (at_call (describe this c)) x) = Some (Impl this, c).
Proof. destruct c; reflexivity. Qed.

Lemma call_is_underlying this c x :
  is_underlying (Ev (at_call (describe this c)) x) = true.
Proof. destruct c; reflexivity. Qed.

Lemma call_not_retry this c x :
  entry_retry (Ev (at_call (describe this c)) x) = None.
Proof. destruct c; reflexivity. Qed.

Lemma call_not_start this c x :
  entry_started (Ev (at_call (describe this c)) x) = None.
Proof. destruct c; reflexivity. Qed.

(** What an attempt does with the answer [x] of the wrapped accessor,
    in terms of the outcome [o] that [x] stands for. *)
Lemma describe_spec this c x :
  exists o,
    entry_outcome (Ev (at_call (describe this c)) x) = Some o /\
    err_of (at_declined (describe this c) x) = err_of o /\
    match at_return (describe this c) x with
    | Some r =>
        err_of r = err_of o /\
        (err_of o = None \/ IsSuccessOrBenignError (err_of o) = true) /\
        (err_of o = None -> hands_over c r o)
    | None =>
        IsSuccessOrBenignError (err_of o) = false /\
        (err_of o = None -> IsSuccessOrBenignError None = false)
    end.
Proof.
  destruct c; cbn in x |- *; eexists; (split; [reflexivity|]); (split; [reflexivity|]).
  1, 7: destruct (IsSuccessOrBenignError x) eqn:B; cbn;
    [ repeat split; auto | split; [first [exact B | reflexivity] | intros ->; exact B] ].
  4, 5: destruct x as [v err]; cbn;
    destruct (IsSuccessOrBenignError err) eqn:B; cbn;
    [ repeat split; auto | split; [first [exact B | reflexivity] | intros ->; exact B] ].
  - destruct x as [v [e|]]; cbn.
    + destruct (IsSuccessOrBenignError (Some e)) eqn:B; cbn.
      * repeat split; auto. discriminate.
      * split; [first [exact B | reflexivity] | discriminate].
    + repeat split; auto. intros _. eexists. split; reflexivity.
  - destruct x as [[v size] [e|]]; cbn.
    + destruct (IsSuccessOrBenignError (Some e)) eqn:B; cbn.
      * repeat split; auto. discriminate.
      * split; [first [exact B | reflexivity] | discriminate].
    + repeat split; auto.
  - destruct x as [v [e|]]; cbn.
    + destruct (IsSuccessOrBenignError (Some e)) eqn:B; cbn.
      * repeat split; auto. discriminate.
      * split; [first [exact B | reflexivity] | discriminate].
    + repeat split; auto. intros _. eexists. split; reflexivity.
Qed.

Lemma fails_retryably_spec o :
  fails_retryably o = true <->
  err_of o <> None /\ IsSuccessOrBenignError (err_of o) = false.
Proof.
  unfold fails_retryably. destruct (err_of o) as [e|].
  - rewrite negb_true_iff. split; [intros B; split; [discriminate | exact B] | tauto].
  - split; [discriminate | intros [N _]; contradiction].
Qed.

(** A retryable failure is never returned without asking the policy. *)
Lemma retryable_asks this c x o :
  entry_outcome (Ev (at_call (describe this c)) x) = Some o ->
  fails_retryably o = true ->
  at_return (describe this c) x = None.
Proof.
  intros Ho F. apply fails_retryably_spec in F. destruct F as [N B].
  destruct (describe_spec this c x) as (o' & Ho' & _ & S).
  rewrite Ho in Ho'. inversion Ho'; subst o'.
  destruct (at_return (describe this c) x); [|reflexivity].
  destruct S as (_ & [E|E] & _); congruence.
Qed.

(** An outcome the classifier exempts is returned at once, error and all. *)
Lemma benign_returns this c x o :
  entry_outcome (Ev (at_call (describe this c)) x) = Some o ->
  IsSuccessOrBenignError (err_of o) = true ->
  exists r, at_return (describe this c) x = Some r /\ err_of r = err_of o
            /\ (err_of o = None -> hands_over c r o).
Proof.
  intros Ho B.
  destruct (describe_spec this c x) as (o' & Ho' & _ & S).
  rewrite Ho in Ho'. inversion Ho'; subst o'.
  destruct (at_return (describe this c) x) as [r|].
  - exists r. destruct S as (E & _ & W). auto.
  - destruct S as [B' _]. congruence.
Qed.

End Facts.

(* ===================================================================== *)
(** * The claims *)
(* ===================================================================== *)

Unset Implicit Arguments.

Section Claims.

Context `{Collaborators}.

Lemma last_outcome_cons en tr o :
  last_outcome tr = Some o -> last_outcome (en :: tr) = Some o.
Proof. intros E. cbn. rewrite E. reflexivity. Qed.

Lemma ask_not_underlying A op x b : is_underlying (Ev (ask A op x) b) = false.
Proof. reflexivity. Qed.

Lemma ask_is_retry A op x b : entry_retry (Ev (ask A op x) b) = Some (op, b).
Proof. reflexivity. Qed.

Lemma hands_over_err c r o : hands_over c r o -> err_of o = None -> err_of r = None.
Proof.
  destruct c; cbn; try (intros -> E; exact E);
    intros (w & -> & ->) _; reflexivity.
Qed.

(** Counting the entries of one attempt. *)
Lemma count_attempt this c x op b tr :
  count_underlying
    (Ev (at_call (describe this c)) x :: Ev (ask (describe this c) op x) b :: tr)
  = S (count_underlying tr) /\
  count_retry
    (Ev (at_call (describe this c)) x :: Ev (ask (describe this c) op x) b :: tr)
  = S (count_retry tr).
Proof.
  rewrite !count_underlying_cons, !count_retry_cons, call_is_underlying.
  unfold is_retry. rewrite call_not_retry. split; reflexivity.
Qed.

Lemma count_call this c x :
  count_underlying [Ev (at_call (describe this c)) x] = 1 /\
  count_retry [Ev (at_call (describe this c)) x] = 0.
Proof.
  rewrite !count_underlying_cons, !count_retry_cons, call_is_underlying.
  unfold is_retry. rewrite call_not_retry. split; reflexivity.
Qed.

(** With [j] failures still to come, the loop makes [j + 1] calls. *)
Lemma attempts_until_success this c (env : Env) op k :
  IsSuccessOrBenignError None = true ->
  accessor_behaves env
    (fun n o => (n < k -> fails_retryably o = true) /\ (n = k -> err_of o = None)) ->
  policy_behaves env (fun n b => n < k -> b = true) ->
  forall j h,
    count_underlying h + j = k -> count_retry h + j = k ->
    exists tr r o,
      Attempts (describe this c) env op h (Some r) tr /\
      count_underlying tr = S j /\ count_retry tr = j /\
      last_outcome tr = Some o /\ err_of o = None /\ hands_over c r o.
Proof.
  intros Hnil Hacc Hpol. induction j as [|j IH]; intros h Hu Hr.
  - set (x := env h _ (at_call (describe this c))).
    destruct (describe_spec this c x) as (o & Ho & _ & _).
    destruct (Hacc h _ _ o Ho) as [_ Hs].
    assert (E : err_of o = None) by (apply Hs; lia).
    destruct (benign_returns this c x Ho) as (r & Hret & _ & Hw).
    { rewrite E. exact Hnil. }
    exists [Ev (at_call (describe this c)) x], r, o.
    destruct (count_call this c x) as [C1 C2].
    split; [apply At_return; [reflexivity | exact Hret]|].
    repeat split; auto.
  - set (x := env h _ (at_call (describe this c))).
    destruct (describe_spec this c x) as (o & Ho & _ & _).
    destruct (Hacc h _ _ o Ho) as [Hf _].
    assert (Hret : at_return (describe this c) x = None).
    { apply (retryable_asks this c x Ho). apply Hf. lia. }
    assert (Hb : env (h ++ [Ev (at_call (describe this c)) x]) _ (ask (describe this c) op x) = true).
    { apply Hpol. rewrite count_retry_app.
      destruct (count_call this c x) as [_ ->]. lia. }
    destruct (IH (h ++ [Ev (at_call (describe this c)) x; Ev (ask (describe this c) op x) true]))
      as (tr & r & o' & D & Cu & Cr & L & E & W).
    { rewrite count_underlying_app.
      destruct (count_attempt this c x op true []) as [-> _]. cbn. lia. }
    { rewrite count_retry_app.
      destruct (count_attempt this c x op true []) as [_ ->]. cbn. lia. }
    exists (Ev (at_call (describe this c)) x :: Ev (ask (describe this c) op x) true :: tr), r, o'.
    destruct (count_attempt this c x op true tr) as [C1 C2].
    split; [apply At_again; [reflexivity | exact Hret | exact Hb | exact D]|].
    rewrite C1, C2, Cu, Cr. repeat split; auto.
    apply last_outcome_cons, last_outcome_cons, L.
Qed.

(** C1.  For each of the seven methods and every [k]: if the wrapped
    accessor fails with a retryable error on its first [k] calls and
    succeeds on call [k + 1], and the policy grants each of the first [k]
    retries it is asked for ([k] is below its budget), then the method
    returns, having called the wrapped accessor exactly [k + 1] times and
    asked the policy exactly [k] times, and hands the caller the success
    of the last call.  With [k = 0]: one call, no retry.  The classifier
    is assumed to treat [nil] as success, as its contract says. *)
Theorem retry_until_success this c (env : Env) k :
  IsSuccessOrBenignError None = true ->
  accessor_behaves env
    (fun n o => (n < k -> fails_retryably o = true) /\ (n = k -> err_of o = None)) ->
  policy_behaves env (fun n b => n < k -> b = true) ->
  exists n tr r o,
    (forall fuel, n <= fuel -> run fuel env (invoke this c) = (Some r, tr)) /\
    count_underlying tr = S k /\ count_retry tr = k /\
    last_outcome tr = Some o /\ err_of o = None /\
    hands_over c r o /\ err_of r = None.
Proof.
  intros Hnil Hacc Hpol.
  set (op := env [] _ (StartOperation (RetryPolicy this))).
  destruct (attempts_until_success this c env op k Hnil Hacc Hpol k
              [Ev (StartOperation (RetryPolicy this)) op])
    as (tr & r & o & D & Cu & Cr & L & E & W); [reflexivity | reflexivity |].
  assert (R : CallRun (RetryPolicy this) (describe this c) env [] (Some r)
                (Ev (StartOperation (RetryPolicy this)) op :: tr)).
  { constructor; [reflexivity | exact D]. }
  destruct (CallRun_invoke this c R) as [n Hn].
  exists n, (Ev (StartOperation (RetryPolicy this)) op :: tr), r, o.
  split; [exact Hn|].
  rewrite count_underlying_cons, count_retry_cons. cbn [is_underlying is_retry].
  repeat split; auto.
  - apply last_outcome_cons, L.
  - eapply hands_over_err; eauto.
Qed.

Lemma verdicts_attempt this c x op b tr :
  verdicts (Ev (at_call (describe this c)) x :: Ev (ask (describe this c) op x) b :: tr)
  = b :: verdicts tr.
Proof. cbn [verdicts]. rewrite call_not_retry. reflexivity. Qed.

Lemma verdicts_call this c x : verdicts [Ev (at_call (describe this c)) x] = [].
Proof. cbn [verdicts]. rewrite call_not_retry. reflexivity. Qed.

Lemma last_outcome_call this c x o tr :
  entry_outcome (Ev (at_call (describe this c)) x) = Some o ->
  last_outcome tr = None ->
  last_outcome (Ev (at_call (describe this c)) x :: tr) = Some o.
Proof. intros Ho L. cbn [last_outcome]. rewrite L. exact Ho. Qed.

(** When every call fails retryably: calls are made only as long as the
    policy grants retries, and a run that returns returns the error of
    its last call, the policy having declined. *)
Lemma attempts_all_failing this c (env : Env) op :
  accessor_behaves env (fun _ o => fails_retryably o = true) ->
  forall h res tr,
    Attempts (describe this c) env op h res tr ->
    count_underlying tr <= S (count_granted tr) /\
    forall r, res = Some r ->
      exists o, last_outcome tr = Some o /\ err_of r = err_of o
                /\ last (verdicts tr) true = false.
Proof.
  intros Hacc h res tr D.
  induction D as [h|h x Hx|h x r0 Hx Hret|h x b Hx Hret Hb|h x Hx Hret Hb
                 |h x res tr Hx Hret Hb D IH].
  - split; [cbn; lia | discriminate].
  - destruct (count_call this c x) as [-> _]. split; [lia | discriminate].
  - exfalso. destruct (describe_spec this c x) as (o & Ho & _).
    assert (F : fails_retryably o = true) by (subst x; exact (Hacc h _ _ o Ho)).
    rewrite (retryable_asks this c x Ho F) in Hret. discriminate.
  - destruct (count_attempt this c x op b []) as [-> _]. split; [cbn; lia | discriminate].
  - destruct (count_attempt this c x op false []) as [-> _]. split; [cbn; lia|].
    intros r Er. inversion Er; subst r.
    destruct (describe_spec this c x) as (o & Ho & Hd & _).
    exists o. split; [|split; [exact Hd|]].
    + apply last_outcome_call; [exact Ho | reflexivity].
    + rewrite verdicts_attempt. reflexivity.
  - destruct IH as [IH1 IH2].
    destruct (count_attempt this c x op true tr) as [-> _].
    unfold count_granted in *. rewrite verdicts_attempt. cbn [filter List.length].
    split; [lia|].
    intros r Er. destruct (IH2 r Er) as (o & L & E & V).
    exists o. split; [apply last_outcome_cons, last_outcome_cons, L|].
    split; [exact E|].
    destruct (verdicts tr) as [|b l]; [discriminate V | exact V].
Qed.

(** With [j] grants still to come, the loop makes [j + 1] calls. *)
Lemma attempts_until_declined this c (env : Env) op m :
  accessor_behaves env (fun _ o => fails_retryably o = true) ->
  policy_behaves env (fun n b => (n < m -> b = true) /\ (n = m -> b = false)) ->
  forall j h,
    count_retry h + j = m ->
    exists tr r o,
      Attempts (describe this c) env op h (Some r) tr /\
      count_underlying tr = S j /\ verdicts tr = repeat true j ++ [false] /\
      last_outcome tr = Some o /\ err_of r = err_of o.
Proof.
  intros Hacc Hpol. induction j as [|j IH]; intros h Hr;
    set (x := env h _ (at_call (describe this c)));
    destruct (describe_spec this c x) as (o & Ho & Hd & _);
    assert (Hret : at_return (describe this c) x = None)
      by (apply (retryable_asks this c x Ho); exact (Hacc h _ _ o Ho));
    destruct (Hpol (h ++ [Ev (at_call (describe this c)) x]) op
                (at_message (describe this c)) (at_args (describe this c) x))
      as [Hyes Hno];
    rewrite count_retry_app in Hyes, Hno;
    destruct (count_call this c x) as [_ Cr0]; rewrite Cr0 in Hyes, Hno.
  - exists [Ev (at_call (describe this c)) x; Ev (ask (describe this c) op x) false],
      (at_declined (describe this c) x), o.
    destruct (count_attempt this c x op false []) as [C1 _].
    split; [apply At_declined; [reflexivity | exact Hret | apply Hno; lia]|].
    rewrite C1, verdicts_attempt. repeat split; auto.
  - destruct (IH (h ++ [Ev (at_call (describe this c)) x;
                        Ev (ask (describe this c) op x) true]))
      as (tr & r & o' & D & Cu & V & L & E).
    { rewrite count_retry_app.
      destruct (count_attempt this c x op true []) as [_ ->]. cbn. lia. }
    exists (Ev (at_call (describe this c)) x :: Ev (ask (describe this c) op x) true :: tr),
      r, o'.
    destruct (count_attempt this c x op true tr) as [C1 _].
    split; [apply At_again; [reflexivity | exact Hret | apply Hyes; lia | exact D]|].
    rewrite C1, Cu, verdicts_attempt, V. repeat split; auto.
    apply last_outcome_cons, last_outcome_cons, L.
Qed.

(** C2.  For each of the seven methods, when every call of the wrapped
    accessor fails with a retryable error: at any moment the number of
    calls made is at most one more than the number of retries the policy
    has granted, and a run that returns does so right after the policy
    declined, with the error of the last call, unchanged.  If the policy
    grants [m] retries and declines the next, the method returns after
    exactly [m + 1] calls. *)
Theorem retry_until_declined this c (env : Env) :
  accessor_behaves env (fun _ o => fails_retryably o = true) ->
  (forall fuel res tr,
      run fuel env (invoke this c) = (res, tr) ->
      count_underlying tr <= S (count_granted tr) /\
      forall r, res = Some r ->
        exists o, last_outcome tr = Some o /\ err_of r = err_of o
                  /\ last (verdicts tr) true = false) /\
  (forall m,
      policy_behaves env (fun n b => (n < m -> b = true) /\ (n = m -> b = false)) ->
      exists n tr r o,
        (forall fuel, n <= fuel -> run fuel env (invoke this c) = (Some r, tr)) /\
        count_underlying tr = S m /\ verdicts tr = repeat true m ++ [false] /\
        last_outcome tr = Some o /\ err_of r = err_of o).
Proof.
  intros Hacc. split.
  - intros fuel res tr E. apply invoke_CallRun in E.
    inversion E as [|h' op res' tr' Hop D Eh Eres Etr]; subst.
    + split; [cbn; lia | discriminate].
    + destruct (attempts_all_failing this c env _ Hacc _ _ _ D) as [A1 A2].
      rewrite count_underlying_cons. cbn [is_underlying].
      unfold count_granted in *. cbn [verdicts entry_retry]. cbn.
      split; [exact A1|].
      intros r Er. destruct (A2 r Er) as (o & L & Eo & V).
      exists o. split; [|split; assumption].
      change (last_outcome (Ev (StartOperation (RetryPolicy this))
                 (env [] OpPtr (StartOperation (RetryPolicy this))) :: tr') = Some o).
      apply last_outcome_cons, L.
  - intros m Hpol.
    set (op := env [] _ (StartOperation (RetryPolicy this))).
    destruct (attempts_until_declined this c env op m Hacc Hpol m
                [Ev (StartOperation (RetryPolicy this)) op])
      as (tr & r & o & D & Cu & V & L & E); [reflexivity|].
    assert (R : CallRun (RetryPolicy this) (describe this c) env [] (Some r)
                  (Ev (StartOperation (RetryPolicy this)) op :: tr)).
    { constructor; [reflexivity | exact D]. }
    destruct (CallRun_invoke this c R) as [n Hn].
    exists n, (Ev (StartOperation (RetryPolicy this)) op :: tr), r, o.
    split; [exact Hn|].
    rewrite count_underlying_cons. cbn [is_underlying].
    repeat split; auto. apply last_outcome_cons, L.
Qed.

(** C3.  For each of the seven methods, if what the wrapped accessor
    returns from its first call is classified success-or-benign, the
    method returns after exactly one call of the wrapped accessor and
    nothing else but the initial [StartOperation]; the policy is asked
    for a verdict no more than once, and the error, if any, reaches the
    caller as the wrapped accessor gave it. *)
Theorem benign_returns_at_once this c (env : Env) :
  accessor_behaves env (fun n o => n = 0 -> IsSuccessOrBenignError (err_of o) = true) ->
  exists n tr r o,
    (forall fuel, n <= fuel -> run fuel env (invoke this c) = (Some r, tr)) /\
    count_underlying tr = 1 /\ count_retry tr <= 1 /\ List.length tr = 2 /\
    last_outcome tr = Some o /\ err_of r = err_of o.
Proof.
  intros Hacc.
  set (op := env [] _ (StartOperation (RetryPolicy this))).
  set (h := [Ev (StartOperation (RetryPolicy this)) op]).
  set (x := env h _ (at_call (describe this c))).
  destruct (describe_spec this c x) as (o & Ho & _ & _).
  destruct (benign_returns this c x Ho) as (r & Hret & Herr & _).
  { apply (Hacc h _ _ o Ho). reflexivity. }
  assert (R : CallRun (RetryPolicy this) (describe this c) env [] (Some r)
                (Ev (StartOperation (RetryPolicy this)) op
                 :: [Ev (at_call (describe this c)) x])).
  { constructor; [reflexivity|]. apply At_return; [reflexivity | exact Hret]. }
  destruct (CallRun_invoke this c R) as [n Hn].
  exists n, (Ev (StartOperation (RetryPolicy this)) op
             :: [Ev (at_call (describe this c)) x]), r, o.
  split; [exact Hn|].
  rewrite count_underlying_cons, count_retry_cons. cbn [is_underlying is_retry].
  destruct (count_call this c x) as [-> ->].
  repeat split; auto.
  apply last_outcome_cons, last_outcome_call; [exact Ho | reflexivity].
Qed.

(** A run that returns ends with a call of the wrapped accessor whose
    answer is either returned at once or returned after the policy
    declined. *)
Lemma final_attempt this c (env : Env) op h r tr :
  Attempts (describe this c) env op h (Some r) tr ->
  exists x o,
    entry_outcome (Ev (at_call (describe this c)) x) = Some o /\
    last_outcome tr = Some o /\
    (at_return (describe this c) x = Some r \/
     (at_return (describe this c) x = None /\ r = at_declined (describe this c) x)).
Proof.
  intros D. remember (Some r) as res eqn:Hres.
  induction D as [h|h x Hx|h x r0 Hx Hret|h x b Hx Hret Hb|h x Hx Hret Hb
                 |h x res tr Hx Hret Hb D IH]; try discriminate.
  - inversion Hres; subst r0.
    destruct (describe_spec this c x) as (o & Ho & _).
    exists x, o. split; [exact Ho|]. split; [|left; exact Hret].
    apply last_outcome_call; [exact Ho | reflexivity].
  - inversion Hres; subst r.
    destruct (describe_spec this c x) as (o & Ho & _).
    exists x, o. split; [exact Ho|]. split; [|right; split; [exact Hret | reflexivity]].
    apply last_outcome_call; [exact Ho | reflexivity].
  - destruct (IH Hres) as (x' & o & Ho & L & R).
    exists x', o. split; [exact Ho|]. split; [|exact R].
    apply last_outcome_cons, last_outcome_cons, L.
Qed.

(** The same for a whole call. *)
Lemma final_attempt_of_call this c (env : Env) h r tr :
  CallRun (RetryPolicy this) (describe this c) env h (Some r) tr ->
  exists x o,
    entry_outcome (Ev (at_call (describe this c)) x) = Some o /\
    last_outcome tr = Some o /\
    (at_return (describe this c) x = Some r \/
     (at_return (describe this c) x = None /\ r = at_declined (describe this c) x)).
Proof.
  intros D. inversion D as [|h' op res tr' Hop D' Eh Eres Etr]; subst.
  destruct (final_attempt this c env _ _ r tr' D') as (x & o & Ho & L & R).
  exists x, o. split; [exact Ho|]. split; [|exact R].
  apply last_outcome_cons, L.
Qed.

(** Runs of the three methods that open a stream, as runs of the loop. *)
Lemma OpenRead_CallRun this path (env : Env) fuel v tr :
  run fuel env (OpenRead this path) = (Some v, tr) ->
  CallRun (RetryPolicy this) (describe this (CallOpenRead path)) env []
    (Some (OutReader (fst v) (snd v))) tr.
Proof.
  intros E. eapply exec_retry_loop_CallRun with (fuel := fuel).
  rewrite (exec_eq_itree _ (OpenRead_loop this path)). unfold run in E. rewrite E.
  reflexivity.
Qed.

Lemma OpenReadForRandomAccess_CallRun this path (env : Env) fuel v tr :
  run fuel env (OpenReadForRandomAccess this path) = (Some v, tr) ->
  CallRun (RetryPolicy this) (describe this (CallOpenReadForRandomAccess path)) env []
    (Some (OutRandom (fst (fst v)) (snd (fst v)) (snd v))) tr.
Proof.
  intros E. eapply exec_retry_loop_CallRun with (fuel := fuel).
  rewrite (exec_eq_itree _ (OpenReadForRandomAccess_loop this path)).
  unfold run in E. rewrite E. reflexivity.
Qed.

Lemma OpenWrite_CallRun this path (env : Env) fuel v tr :
  run fuel env (OpenWrite this path) = (Some v, tr) ->
  CallRun (RetryPolicy this) (describe this (CallOpenWrite path)) env []
    (Some (OutWriter (fst v) (snd v))) tr.
Proof.
  intros E. eapply exec_retry_loop_CallRun with (fuel := fuel).
  rewrite (exec_eq_itree _ (OpenWrite_loop this path)). unfold run in E. rewrite E.
  reflexivity.
Qed.

(** C4.  Whenever [OpenRead] returns without error, the last call of the
    wrapped accessor returned some stream [raw] without error and the
    caller receives the fault-tolerant reader built from the path, [raw],
    the wrapped accessor and the retry policy of the accessor, at offset
    0.  Whenever it returns an error the reader is [nil]: the raw stream
    itself is never what the caller receives. *)
Theorem OpenRead_wraps this path (env : Env) fuel rd err tr :
  run fuel env (OpenRead this path) = (Some (rd, err), tr) ->
  match err with
  | None =>
      exists raw,
        last_outcome tr = Some (OutReader raw None) /\
        rd = ReaderFaultTolerant
               {| rd_Path := path; rd_Impl := raw; rd_HdfsAccessor := Impl this;
                  rd_RetryPolicy := RetryPolicy this; rd_Offset := 0 |}
  | Some _ => rd = ReaderNil
  end.
Proof.
  intros E. apply OpenRead_CallRun in E. apply final_attempt_of_call in E.
  destruct E as ([raw e] & o & Ho & L & R). cbn in Ho. inversion Ho; subst o. clear Ho.
  cbn in R. destruct e as [e|].
  - destruct (IsSuccessOrBenignError (Some e)); destruct R as [R|[R1 R2]];
      try discriminate; first [inversion R | inversion R2]; subst; reflexivity.
  - destruct R as [R|[R1 R2]]; [|discriminate].
    inversion R; subst. exists raw. split; [exact L | reflexivity].
Qed.

(** C5.  Whenever [OpenReadForRandomAccess] returns without error, the
    reader and the size it returns are exactly the ones the last call of
    the wrapped accessor returned. *)
Theorem OpenReadForRandomAccess_unwrapped this path (env : Env) fuel reader size err tr :
  run fuel env (OpenReadForRandomAccess this path) = (Some (reader, size, err), tr) ->
  err = None ->
  last_outcome tr = Some (OutRandom reader size None).
Proof.
  intros E ->. apply OpenReadForRandomAccess_CallRun in E.
  apply final_attempt_of_call in E.
  destruct E as ([[raw sz] e] & o & Ho & L & R). cbn in Ho. inversion Ho; subst o. clear Ho.
  cbn in R. destruct e as [e|].
  - destruct (IsSuccessOrBenignError (Some e)); destruct R as [R|[R1 R2]];
      try discriminate; first [inversion R | inversion R2].
  - destruct R as [R|[R1 R2]]; [|discriminate].
    inversion R; subst. exact L.
Qed.

(** C6.  Whenever [OpenWrite] returns without error, the caller receives
    the fault-tolerant writer whose single field is the stream the last
    call of the wrapped accessor returned; the writer holds neither the
    path nor the retry policy. *)
Theorem OpenWrite_wraps this path (env : Env) fuel w err tr :
  run fuel env (OpenWrite this path) = (Some (w, err), tr) ->
  err = None ->
  exists raw,
    last_outcome tr = Some (OutWriter raw None) /\
    w = WriterFaultTolerant {| wr_Impl := raw |}.
Proof.
  intros E ->. apply OpenWrite_CallRun in E. apply final_attempt_of_call in E.
  destruct E as ([raw e] & o & Ho & L & R). cbn in Ho. inversion Ho; subst o. clear Ho.
  cbn in R. destruct e as [e|].
  - destruct (IsSuccessOrBenignError (Some e)); destruct R as [R|[R1 R2]];
      try discriminate; first [inversion R | inversion R2].
  - destruct R as [R|[R1 R2]]; [|discriminate].
    inversion R; subst. exists raw. split; [exact L | reflexivity].
Qed.

(** C9.  Whenever [OpenRead], [OpenWrite] or [OpenReadForRandomAccess]
    returns a non-nil error, the handle it returns is [nil] and, for
    [OpenReadForRandomAccess], the size is 0, whatever the wrapped
    accessor returned next to its error. *)
Theorem error_means_no_handle this path (env : Env) fuel :
  (forall rd err tr,
      run fuel env (OpenRead this path) = (Some (rd, err), tr) ->
      err <> None -> rd = ReaderNil) /\
  (forall w err tr,
      run fuel env (OpenWrite this path) = (Some (w, err), tr) ->
      err <> None -> w = WriterNil) /\
  (forall reader size err tr,
      run fuel env (OpenReadForRandomAccess this path) = (Some (reader, size, err), tr) ->
      err <> None -> reader = None /\ size = 0%N).
Proof.
  split; [|split].
  - intros rd err tr E N. apply OpenRead_CallRun in E. apply final_attempt_of_call in E.
    destruct E as ([raw e] & o & _ & _ & R). cbn in R. destruct e as [e|].
    + destruct (IsSuccessOrBenignError (Some e)); destruct R as [R|[R1 R2]];
        try discriminate; first [inversion R | inversion R2]; subst; reflexivity.
    + destruct R as [R|[R1 R2]]; [|discriminate]. inversion R; subst. contradiction.
  - intros w err tr E N. apply OpenWrite_CallRun in E. apply final_attempt_of_call in E.
    destruct E as ([raw e] & o & _ & _ & R). cbn in R. destruct e as [e|].
    + destruct (IsSuccessOrBenignError (Some e)); destruct R as [R|[R1 R2]];
        try discriminate; first [inversion R | inversion R2]; subst; reflexivity.
    + destruct R as [R|[R1 R2]]; [|discriminate]. inversion R; subst. contradiction.
  - intros reader size err tr E N. apply OpenReadForRandomAccess_CallRun in E.
    apply final_attempt_of_call in E.
    destruct E as ([[raw sz] e] & o & _ & _ & R). cbn in R. destruct e as [e|].
    + destruct (IsSuccessOrBenignError (Some e)); destruct R as [R|[R1 R2]];
        try discriminate; first [inversion R | inversion R2]; subst; split; reflexivity.
    + destruct R as [R|[R1 R2]]; [|discriminate]. inversion R; subst. contradiction.
Qed.

(** Inside the loop nothing happens but calls of the wrapped accessor
    and questions to the one operation of the call. *)
Lemma Attempts_entries A (env : Env) op h res tr :
  Attempts A env op h res tr ->
  Forall (fun en => (exists x, en = Ev (at_call A) x) \/
                    (exists x b, en = Ev (ask A op x) b)) tr.
Proof.
  intros D.
  induction D as [h|h x Hx|h x r0 Hx Hret|h x b Hx Hret Hb|h x Hx Hret Hb
                 |h x res tr Hx Hret Hb D IH];
    repeat (constructor; eauto).
Qed.

Lemma loop_entry_cases this c op en :
  ((exists x, en = Ev (at_call (describe this c)) x) \/
   (exists x b, en = Ev (ask (describe this c) op x) b)) ->
  is_start en = false /\
  (is_underlying en = true -> entry_call en = Some (Impl this, c)) /\
  (forall op' b, entry_retry en = Some (op', b) -> op' = op).
Proof.
  intros [[x ->]|(x & b & ->)].
  - unfold is_start. rewrite call_not_start, call_not_retry.
    split; [reflexivity|]. split; [intros _; apply call_entry | discriminate].
  - split; [reflexivity|]. split; [discriminate|].
    intros op' b' E. cbn in E. inversion E. reflexivity.
Qed.

Lemma loop_scoped this c (env : Env) op h res tr :
  Attempts (describe this c) env op h res tr ->
  count_start tr = 0 /\ retries_through (Some op) tr.
Proof.
  intros D. apply Attempts_entries in D.
  induction D as [|en tr Hen D IH]; [split; [reflexivity | exact I]|].
  destruct (loop_entry_cases this c op en Hen) as (S0 & _ & R).
  destruct IH as [IH1 IH2].
  rewrite count_start_cons, S0. split; [exact IH1|].
  cbn [retries_through]. unfold is_start, is_some in S0.
  destruct (entry_started en); [discriminate|].
  destruct (entry_retry en) as [[op' b]|] eqn:E; [|exact IH2].
  rewrite (R op' b eq_refl). split; [reflexivity | exact IH2].
Qed.

Lemma retries_through_app cur tr1 tr2 :
  retries_through cur tr1 ->
  (forall cur', retries_through cur' tr2) ->
  retries_through cur (tr1 ++ tr2).
Proof.
  intros R1 R2. revert cur R1.
  induction tr1 as [|en tr1 IH]; intros cur R1; [apply R2|].
  cbn [app retries_through] in *.
  destruct (entry_started en) as [[p op]|]; [apply IH, R1|].
  destruct (entry_retry en) as [[op b]|]; [|apply IH, R1].
  destruct R1 as [E R1]. split; [exact E | apply IH, R1].
Qed.

(** One call: whatever operation was current before, its retry decisions
    go through its own. *)
Lemma call_scoped this c (env : Env) fuel h res tr :
  exec fuel env h (invoke this c) = (res, tr) ->
  (forall cur, retries_through cur tr) /\
  count_start tr <= 1 /\ (res <> None -> count_start tr = 1).
Proof.
  intros E. apply invoke_CallRun in E.
  inversion E as [|h' op res' tr' Hop D Eh Eres Etr]; subst.
  - split; [intros cur; exact I|]. split; [cbn; lia | intros N; contradiction].
  - destruct (loop_scoped this c env _ _ _ _ D) as [C0 R].
    rewrite count_start_cons, C0. cbn [is_start entry_started is_some].
    split; [intros cur; exact R|]. split; [lia | reflexivity].
Qed.

(** Several calls in a row. *)
Lemma session_scoped this (env : Env) cs :
  forall fuel h res tr,
    exec fuel env h (session this cs) = (res, tr) ->
    (forall cur, retries_through cur tr) /\
    count_start tr <= List.length cs /\
    (res <> None -> count_start tr = List.length cs).
Proof.
  induction cs as [|c cs IH]; intros fuel h res tr E.
  - destruct fuel; cbn in E; inversion E; subst;
      (split; [intros cur; exact I|]); split; auto.
  - cbn [session] in E. apply exec_bind in E.
    destruct E as [[-> E]|(o & tr1 & tr2 & fuel2 & _ & E1 & E2 & ->)].
    + destruct (call_scoped this c env _ _ _ _ E) as (R & C & _).
      split; [exact R|]. cbn [List.length]. split; [lia | intros N; contradiction].
    + destruct (call_scoped this c env _ _ _ _ E1) as (R1 & _ & C1).
      specialize (C1 ltac:(discriminate)).
      apply exec_bind in E2.
      destruct E2 as [[-> E2]|(os & tr3 & tr4 & fuel3 & _ & E3 & E4 & ->)].
      * destruct (IH _ _ _ _ E2) as (R2 & C2 & _).
        split; [intros cur; apply retries_through_app; [apply R1 | exact R2]|].
        rewrite count_start_app, C1. cbn [List.length].
        split; [lia | intros N; contradiction].
      * destruct (IH _ _ _ _ E3) as (R2 & C2 & C3).
        specialize (C3 ltac:(discriminate)).
        assert (tr4 = []) as ->.
        { destruct fuel3; cbn in E4; inversion E4; reflexivity. }
        rewrite app_nil_r.
        split; [intros cur; apply retries_through_app; [apply R1 | exact R2]|].
        rewrite count_start_app, C1, C3. cbn [List.length].
        split; [lia | reflexivity].
Qed.

(** C7.  For each of the seven methods: the first thing a call does is
    [StartOperation] on the policy of the accessor; nothing later in the
    call is a [StartOperation], and every [ShouldRetry] of the call is
    asked of the operation handed out at its start.  Across calls made
    one after the other, every [ShouldRetry] is asked of the operation of
    the latest [StartOperation], that of its own call, and there are as
    many [StartOperation]s as calls. *)
Theorem one_operation_per_call this (env : Env) :
  (forall c fuel,
      exists op rest,
        snd (run (S fuel) env (invoke this c))
        = Ev (StartOperation (RetryPolicy this)) op :: rest /\
        count_start rest = 0 /\
        forall en op' b, In en rest -> entry_retry en = Some (op', b) -> op' = op) /\
  (forall cs fuel res tr,
      run fuel env (session this cs) = (res, tr) ->
      retries_through None tr /\
      count_start tr <= List.length cs /\
      (res <> None -> count_start tr = List.length cs)).
Proof.
  split.
  - intros c fuel.
    destruct (run (S fuel) env (invoke this c)) as [res tr] eqn:E.
    unfold run in E. pose proof E as D. apply invoke_CallRun in D.
    inversion D as [|h' op res' tr' Hop D' Eh Eres Etr]; subst.
    + rewrite invoke_loop, exec_retry_loop_S in E. cbv zeta in E.
      destruct (exec fuel env _ _) in E. discriminate.
    + exists (env [] _ (StartOperation (RetryPolicy this))), tr'.
      split; [reflexivity|].
      destruct (loop_scoped this c env _ _ _ _ D') as [C0 _].
      split; [exact C0|].
      intros en op' b I E'. apply Attempts_entries in D'.
      rewrite Forall_forall in D'.
      destruct (loop_entry_cases this c _ en (D' en I)) as (_ & _ & R).
      exact (R op' b E').
  - intros cs fuel res tr E.
    destruct (session_scoped this env cs _ _ _ _ E) as (R & C).
    split; [apply R | exact C].
Qed.

(** C8.  For each of the seven methods, every call of the wrapped
    accessor made during a call is a call of the same method on the
    accessor being wrapped, with exactly the arguments of the caller: the
    path and mode of [Mkdir], the path of [Stat] and [ReadDir], on every
    attempt. *)
Theorem arguments_passed_unchanged this c (env : Env) fuel en :
  In en (snd (run fuel env (invoke this c))) ->
  is_underlying en = true ->
  entry_call en = Some (Impl this, c).
Proof.
  destruct (run fuel env (invoke this c)) as [res tr] eqn:E. cbn [snd].
  unfold run in E. apply invoke_CallRun in E.
  inversion E as [|h' op res' tr' Hop D Eh Eres Etr]; subst; [intros []|].
  intros [<-|I] U; [discriminate U|].
  apply Attempts_entries in D. rewrite Forall_forall in D.
  destruct (loop_entry_cases this c _ en (D en I)) as (_ & C & _).
  exact (C U).
Qed.

Lemma attempts_of_call this c x o rest :
  entry_outcome (Ev (at_call (describe this c)) x) = Some o ->
  attempts_of (Ev (at_call (describe this c)) x :: rest)
  = (o, verdicts_before_next_call rest) :: attempts_of rest.
Proof. intros Ho. cbn [attempts_of]. rewrite Ho. reflexivity. Qed.

Lemma before_next_call_call this c x rest :
  verdicts_before_next_call (Ev (at_call (describe this c)) x :: rest) = [].
Proof. cbn [verdicts_before_next_call]. rewrite call_is_underlying. reflexivity. Qed.

(** What the classifier says about an outcome decides whether the policy
    is asked. *)
Lemma asked_iff_not_benign this c x o :
  entry_outcome (Ev (at_call (describe this c)) x) = Some o ->
  (IsSuccessOrBenignError (err_of o) = true -> at_return (describe this c) x <> None) /\
  (fails_retryably o = true -> at_return (describe this c) x = None).
Proof.
  intros Ho. split.
  - intros B. destruct (benign_returns this c x Ho B) as (r & -> & _). discriminate.
  - apply retryable_asks, Ho.
Qed.

Lemma attempts_discipline this c (env : Env) op h res tr :
  Attempts (describe this c) env op h res tr ->
  verdicts_before_next_call tr = [] /\
  verdicts tr = List.concat (map snd (attempts_of tr)) /\
  forall o vs, In (o, vs) (attempts_of tr) ->
    (IsSuccessOrBenignError (err_of o) = true -> vs = []) /\
    (fails_retryably o = true ->
     List.length vs <= 1 /\ (res <> None -> List.length vs = 1)).
Proof.
  intros D.
  induction D as [h|h x Hx|h x r0 Hx Hret|h x b Hx Hret Hb|h x Hx Hret Hb
                 |h x res tr Hx Hret Hb D IH];
    try (destruct (describe_spec this c x) as (o & Ho & _);
         destruct (asked_iff_not_benign this c x o Ho) as [Hben Hfail];
         rewrite (attempts_of_call this c x o _ Ho), before_next_call_call).
  - split; [reflexivity|]. split; [reflexivity | intros o vs []].
  - rewrite verdicts_call. split; [reflexivity|]. split; [reflexivity|].
    intros o' vs [E|[]]. inversion E; subst o' vs. cbn.
    split; [reflexivity|]. intros _. split; [lia | intros N; contradiction].
  - rewrite verdicts_call. split; [reflexivity|]. split; [reflexivity|].
    intros o' vs [E|[]]. inversion E; subst o' vs. cbn.
    split; [reflexivity|]. intros F. rewrite (Hfail F) in Hret. discriminate.
  - rewrite verdicts_attempt. split; [reflexivity|]. split; [reflexivity|].
    intros o' vs [E|[]]. inversion E; subst o' vs. cbn.
    split; [intros B; contradiction (Hben B) | intros _; split; [lia | reflexivity]].
  - rewrite verdicts_attempt. split; [reflexivity|]. split; [reflexivity|].
    intros o' vs [E|[]]. inversion E; subst o' vs. cbn.
    split; [intros B; contradiction (Hben B) | intros _; split; [lia | reflexivity]].
  - destruct IH as (IH1 & IH2 & IH3).
    rewrite verdicts_attempt. split; [reflexivity|].
    cbn [verdicts_before_next_call attempts_of is_underlying entry_outcome ask
         entry_retry is_some map snd List.concat].
    rewrite IH1. split; [cbn; rewrite IH2; reflexivity|].
    intros o' vs [E|I]; [|apply IH3, I].
    inversion E; subst o' vs. cbn.
    split; [intros B; contradiction (Hben B) | intros _; split; [lia | reflexivity]].
Qed.

(** C10.  For each of the seven methods, split any run into attempts, an
    attempt being a call of the wrapped accessor with the verdicts asked
    for before the next call.  No verdict is asked for before the first
    attempt and every verdict belongs to an attempt.  An attempt whose
    outcome is classified success-or-benign has no verdict at all: the
    policy is not asked.  An attempt that fails with a retryable error
    has at most one verdict, and exactly one once the method has
    returned. *)
Theorem retry_asked_per_failed_attempt this c (env : Env) fuel res tr :
  run fuel env (invoke this c) = (res, tr) ->
  verdicts_before_next_call tr = [] /\
  verdicts tr = List.concat (map snd (attempts_of tr)) /\
  forall o vs, In (o, vs) (attempts_of tr) ->
    (IsSuccessOrBenignError (err_of o) = true -> vs = []) /\
    (fails_retryably o = true ->
     List.length vs <= 1 /\ (res <> None -> List.length vs = 1)).
Proof.
  intros E. unfold run in E. apply invoke_CallRun in E.
  inversion E as [|h' op res' tr' Hop D Eh Eres Etr]; subst.
  - split; [reflexivity|]. split; [reflexivity | intros o vs []].
  - exact (attempts_discipline this c env _ _ _ _ D).
Qed.

End Claims.

(* ===================================================================== *)
(** * The claims at work in the concrete setting *)
(* ===================================================================== *)

Section Witnesses.

Import Example.
Existing Instance collaborators.

Lemma scripted_accessor fails failure grants h X (e : hdfsE X) o :
  entry_outcome (Ev e (scripted fails failure grants h e)) = Some o ->
  err_of o = if Nat.ltb (count_underlying h) fails then Some failure else None.
Proof.
  unfold scripted. destruct e; cbn; intros E; try discriminate;
    inversion E; reflexivity.
Qed.

Lemma always_failing_accessor failure grants h X (e : hdfsE X) o :
  entry_outcome (Ev e (always_failing failure grants h e)) = Some o ->
  err_of o = Some failure.
Proof.
  unfold always_failing. destruct e; cbn; intros E; try discriminate;
    inversion E; reflexivity.
Qed.

(** [Mkdir("/x", 0755)] fails twice with a retryable error, then
    succeeds: three calls of the wrapped accessor, success. *)
Lemma retry_until_success_witness :
  exists n tr r o,
    (forall fuel, n <= fuel ->
       run fuel flaky (invoke this (CallMkdir "/x" 493%N)) = (Some r, tr)) /\
    count_underlying tr = 3 /\ count_retry tr = 2 /\
    last_outcome tr = Some o /\ err_of o = None /\
    hands_over (CallMkdir "/x" 493%N) r o /\ err_of r = None.
Proof.
  apply (retry_until_success this (CallMkdir "/x" 493%N) flaky 2).
  - reflexivity.
  - intros h X e o Ho. apply scripted_accessor in Ho.
    unfold fails_retryably. rewrite Ho. split.
    + intros L. apply Nat.ltb_lt in L. rewrite L. reflexivity.
    + intros ->. reflexivity.
  - intros h op message args L.
    change (Nat.ltb (count_retry h) 5 = true). apply Nat.ltb_lt. lia.
Defined.

(** [ReadDir] against an accessor that always times out, under a
    policy that grants two retries: three calls, then the time-out. *)
Lemma retry_until_declined_witness :
  exists n tr r o,
    (forall fuel, n <= fuel ->
       run fuel (always_failing "timeout" 2) (invoke this (CallReadDir "/d"))
       = (Some r, tr)) /\
    count_underlying tr = 3 /\ verdicts tr = [true; true; false] /\
    last_outcome tr = Some o /\ err_of r = err_of o.
Proof.
  refine (proj2 (retry_until_declined this (CallReadDir "/d")
                   (always_failing "timeout" 2) _) 2 _).
  { intros h X e o Ho. apply always_failing_accessor in Ho.
    unfold fails_retryably. rewrite Ho. reflexivity. }
  intros h op message args.
  change ((count_retry h < 2 -> Nat.ltb (count_retry h) 2 = true) /\
          (count_retry h = 2 -> Nat.ltb (count_retry h) 2 = false)).
  split; [intros L; apply Nat.ltb_lt; exact L | intros ->; reflexivity].
Defined.

(** [Stat("/missing")] answered "not found": one call, the error as it
    came. *)
Lemma benign_returns_at_once_witness :
  exists n tr r o,
    (forall fuel, n <= fuel ->
       run fuel (always_failing "not found" 2) (invoke this (CallStat "/missing"))
       = (Some r, tr)) /\
    count_underlying tr = 1 /\ count_retry tr <= 1 /\ List.length tr = 2 /\
    last_outcome tr = Some o /\ err_of r = err_of o.
Proof.
  apply (benign_returns_at_once this (CallStat "/missing")
           (always_failing "not found" 2)).
  intros h X e o Ho _. apply always_failing_accessor in Ho. rewrite Ho. reflexivity.
Defined.

(** [OpenRead("/a")] succeeding on its third attempt. *)
Lemma OpenRead_wraps_witness :
  exists raw,
    last_outcome (snd (run 20 flaky (OpenRead this "/a"))) = Some (OutReader raw None) /\
    fst (returned (ReaderNil, None) (run 20 flaky (OpenRead this "/a")))
    = ReaderFaultTolerant
        {| rd_Path := "/a"; rd_Impl := raw; rd_HdfsAccessor := 7;
           rd_RetryPolicy := 3; rd_Offset := 0 |}.
Proof.
  exact (OpenRead_wraps this "/a" flaky 20
           (fst (returned (ReaderNil, None) (run 20 flaky (OpenRead this "/a"))))
           None
           (snd (run 20 flaky (OpenRead this "/a")))
           eq_refl).
Defined.

(** [OpenReadForRandomAccess("/a")] succeeding on its third attempt. *)
Lemma OpenReadForRandomAccess_unwrapped_witness :
  last_outcome (snd (run 20 flaky (OpenReadForRandomAccess this "/a")))
  = Some (OutRandom (Some 12) 4096%N None).
Proof.
  exact (OpenReadForRandomAccess_unwrapped this "/a" flaky 20 (Some 12) 4096%N None
           (snd (run 20 flaky (OpenReadForRandomAccess this "/a")))
           eq_refl eq_refl).
Defined.

(** [OpenWrite("/a")] succeeding on its third attempt. *)
Lemma OpenWrite_wraps_witness :
  exists raw,
    last_outcome (snd (run 20 flaky (OpenWrite this "/a"))) = Some (OutWriter raw None) /\
    fst (returned (WriterNil, None) (run 20 flaky (OpenWrite this "/a")))
    = WriterFaultTolerant {| wr_Impl := raw |}.
Proof.
  exact (OpenWrite_wraps this "/a" flaky 20
           (fst (returned (WriterNil, None) (run 20 flaky (OpenWrite this "/a"))))
           None
           (snd (run 20 flaky (OpenWrite this "/a")))
           eq_refl eq_refl).
Defined.

(** The wrapped accessor returns a stream next to each of its time-outs;
    the caller gets none of them. *)
Lemma error_means_no_handle_witness :
  last_outcome (snd (run 20 (always_failing "timeout" 1) (OpenRead this "/a")))
  = Some (OutReader (ReaderOther 11) (Some "timeout")) /\
  fst (returned (ReaderOther 0, None)
         (run 20 (always_failing "timeout" 1) (OpenRead this "/a")))
  = ReaderNil /\
  fst (returned (WriterOther 0, None)
         (run 20 (always_failing "timeout" 1) (OpenWrite this "/a")))
  = WriterNil /\
  fst (returned (Some 0, 1%N, None)
         (run 20 (always_failing "timeout" 1) (OpenReadForRandomAccess this "/a")))
  = (None, 0%N).
Proof.
  destruct (error_means_no_handle this "/a" (always_failing "timeout" 1) 20)
    as (R & W & A).
  split; [reflexivity|]. split; [|split].
  - apply (R _ (Some "timeout") (snd (run 20 (always_failing "timeout" 1)
                                        (OpenRead this "/a"))));
      [reflexivity | discriminate].
  - apply (W _ (Some "timeout") (snd (run 20 (always_failing "timeout" 1)
                                        (OpenWrite this "/a"))));
      [reflexivity | discriminate].
  - set (v := returned (Some 0, 1%N, None)
                (run 20 (always_failing "timeout" 1) (OpenReadForRandomAccess this "/a"))).
    destruct (A (fst (fst v)) (snd (fst v)) (Some "timeout")
                (snd (run 20 (always_failing "timeout" 1)
                        (OpenReadForRandomAccess this "/a"))))
      as [E1 E2]; [reflexivity | discriminate |].
    rewrite (surjective_pairing (fst v)), E1, E2. reflexivity.
Defined.

(** One [Stat] cut short, and three calls in a row. *)
Lemma one_operation_per_call_witness :
  (exists op rest,
      snd (run 9 flaky (invoke this (CallStat "/a")))
      = Ev (StartOperation 3) op :: rest /\
      count_start rest = 0 /\
      forall en op' b, In en rest -> entry_retry en = Some (op', b) -> op' = op) /\
  (retries_through None
     (snd (run 40 flaky
             (session this [CallStat "/a"; CallMkdir "/x" 493%N; CallEnsureConnected]))) /\
   count_start
     (snd (run 40 flaky
             (session this [CallStat "/a"; CallMkdir "/x" 493%N; CallEnsureConnected])))
   = 3).
Proof.
  destruct (one_operation_per_call this flaky) as [One Many].
  split; [exact (One (CallStat "/a") 8)|].
  destruct (Many [CallStat "/a"; CallMkdir "/x" 493%N; CallEnsureConnected] 40
              (fst (run 40 flaky (session this [CallStat "/a"; CallMkdir "/x" 493%N;
                                                 CallEnsureConnected])))
              (snd (run 40 flaky (session this [CallStat "/a"; CallMkdir "/x" 493%N;
                                                 CallEnsureConnected])))
              (surjective_pairing _)) as (T & _ & C).
  split; [exact T | apply C; discriminate].
Defined.

(** The second [Mkdir] of a retried call gets the path and mode of the
    caller. *)
Lemma arguments_passed_unchanged_witness :
  entry_call (nth 3 (snd (run 20 flaky (invoke this (CallMkdir "/x" 493%N))))
                (Ev (StartOperation 0) 0))
  = Some (7, CallMkdir "/x" 493%N).
Proof.
  apply (arguments_passed_unchanged this (CallMkdir "/x" 493%N) flaky 20).
  - right. right. right. left. reflexivity.
  - reflexivity.
Defined.

(** The attempts of [Mkdir("/x", 0755)] failing twice. *)
Lemma retry_asked_per_failed_attempt_witness :
  verdicts_before_next_call (snd (run 20 flaky (invoke this (CallMkdir "/x" 493%N)))) = [] /\
  verdicts (snd (run 20 flaky (invoke this (CallMkdir "/x" 493%N))))
  = List.concat (map snd (attempts_of
                            (snd (run 20 flaky (invoke this (CallMkdir "/x" 493%N)))))) /\
  forall o vs,
    In (o, vs) (attempts_of (snd (run 20 flaky (invoke this (CallMkdir "/x" 493%N))))) ->
    (IsSuccessOrBenignError (err_of o) = true -> vs = []) /\
    (fails_retryably o = true ->
     List.length vs <= 1 /\
     (fst (run 20 flaky (invoke this (CallMkdir "/x" 493%N))) <> None ->
      List.length vs = 1)).
Proof.
  exact (retry_asked_per_failed_attempt this (CallMkdir "/x" 493%N) flaky 20
           (fst (run 20 flaky (invoke this (CallMkdir "/x" 493%N))))
           (snd (run 20 flaky (invoke this (CallMkdir "/x" 493%N))))
           (surjective_pairing _)).
Defined.

End Witnesses.

(* ===================================================================== *)
(** * Further properties of the accessor *)
(* ===================================================================== *)

Section Beyond.

Context `{Collaborators}.

(** ** What is returned *)

(** Every [return] of the source returns the [err] of the latest call:
    whatever the collaborators do, the error a method returns is the error
    its last call of the wrapped accessor returned. *)
Theorem returned_error_is_last_error this c (env : Env) fuel r tr :
  run fuel env (invoke this c) = (Some r, tr) ->
  exists o, last_outcome tr = Some o /\ err_of r = err_of o.
Proof.
  intros E. unfold run in E. apply invoke_CallRun in E.
  apply final_attempt_of_call in E. destruct E as (x & o & Ho & L & R).
  exists o. split; [exact L|].
  destruct (describe_spec this c x) as (o' & Ho' & Hd & S).
  rewrite Ho in Ho'. inversion Ho'; subst o'.
  destruct R as [R|[R1 R2]].
  - rewrite R in S. apply S.
  - subst r. exact Hd.
Qed.

Lemma plain_description this c x o :
  opens_stream c = false ->
  entry_outcome (Ev (at_call (describe this c)) x) = Some o ->
  at_declined (describe this c) x = o /\
  forall r, at_return (describe this c) x = Some r -> r = o.
Proof.
  destruct c; cbn; try discriminate; intros _ Ho; inversion Ho; subst o;
    (split; [reflexivity|]); intros r; destruct (IsSuccessOrBenignError _);
    intros R; inversion R; reflexivity.
Qed.

(** [EnsureConnected], [ReadDir], [Stat] and [Mkdir] return the tuple of
    their last call of the wrapped accessor as it is, on every path out of
    the loop: a listing or attributes returned next to an error reach the
    caller together with that error. *)
Theorem plain_methods_return_last_tuple this c (env : Env) fuel r tr :
  opens_stream c = false ->
  run fuel env (invoke this c) = (Some r, tr) ->
  last_outcome tr = Some r.
Proof.
  intros P E. unfold run in E. apply invoke_CallRun in E.
  apply final_attempt_of_call in E. destruct E as (x & o & Ho & L & R).
  destruct (plain_description this c x o P Ho) as [Hd Hr].
  rewrite L. f_equal. destruct R as [R|[_ R]].
  - symmetry. apply Hr, R.
  - subst r. symmetry. exact Hd.
Qed.

(** [OpenRead] and [OpenWrite] return a [nil] stream exactly when they
    return an error: a successful open is always wrapped, also when the
    wrapped accessor returned [nil] without error. *)
Theorem stream_is_nil_iff_error this path (env : Env) fuel :
  (forall rd err tr,
      run fuel env (OpenRead this path) = (Some (rd, err), tr) ->
      (rd = ReaderNil <-> err <> None)) /\
  (forall w err tr,
      run fuel env (OpenWrite this path) = (Some (w, err), tr) ->
      (w = WriterNil <-> err <> None)).
Proof.
  split.
  - intros rd err tr E. apply OpenRead_CallRun in E. apply final_attempt_of_call in E.
    destruct E as ([raw e] & o & _ & _ & R). cbn in R. destruct e as [e|].
    + destruct (IsSuccessOrBenignError (Some e)); destruct R as [R|[R1 R2]];
        try discriminate; first [inversion R | inversion R2]; subst;
        (split; [discriminate | reflexivity]).
    + destruct R as [R|[R1 R2]]; [|discriminate]. inversion R; subst.
      split; [discriminate | intros N; contradiction].
  - intros w err tr E. apply OpenWrite_CallRun in E. apply final_attempt_of_call in E.
    destruct E as ([raw e] & o & _ & _ & R). cbn in R. destruct e as [e|].
    + destruct (IsSuccessOrBenignError (Some e)); destruct R as [R|[R1 R2]];
        try discriminate; first [inversion R | inversion R2]; subst;
        (split; [discriminate | reflexivity]).
    + destruct R as [R|[R1 R2]]; [|discriminate]. inversion R; subst.
      split; [discriminate | intros N; contradiction].
Qed.

(** ** How many calls *)

Lemma attempts_count this c (env : Env) op h res tr :
  Attempts (describe this c) env op h res tr ->
  count_granted tr <= count_underlying tr /\
  count_underlying tr <= S (count_granted tr) /\
  (res <> None -> count_underlying tr = S (count_granted tr)).
Proof.
  intros D. unfold count_granted.
  induction D as [h|h x Hx|h x r0 Hx Hret|h x b Hx Hret Hb|h x Hx Hret Hb
                 |h x res tr Hx Hret Hb D IH].
  - cbn. repeat split; try lia; intros N; contradiction.
  - destruct (count_call this c x) as [-> _]. rewrite verdicts_call. cbn.
    repeat split; try lia; intros N; contradiction.
  - destruct (count_call this c x) as [-> _]. rewrite verdicts_call. cbn.
    repeat split; lia.
  - destruct (count_attempt this c x op b []) as [-> _]. rewrite verdicts_attempt.
    destruct b; cbn; repeat split; try lia; intros N; contradiction.
  - destruct (count_attempt this c x op false []) as [-> _]. rewrite verdicts_attempt.
    cbn. repeat split; lia.
  - destruct (count_attempt this c x op true tr) as [-> _]. rewrite verdicts_attempt.
    cbn [filter List.length]. destruct IH as (I1 & I2 & I3).
    repeat split; try lia. intros N. rewrite (I3 N). reflexivity.
Qed.

(** Whatever the collaborators do, the wrapped accessor has been called at
    most once more than the policy has granted a retry, never less often
    than that, and exactly once more when the method returns: every call
    after the first is paid for by one granted retry. *)
Theorem calls_are_grants_plus_one this c (env : Env) fuel res tr :
  run fuel env (invoke this c) = (res, tr) ->
  count_granted tr <= count_underlying tr /\
  count_underlying tr <= S (count_granted tr) /\
  (res <> None -> count_underlying tr = S (count_granted tr)).
Proof.
  intros E. unfold run in E. apply invoke_CallRun in E.
  inversion E as [|h' op res' tr' Hop D Eh Eres Etr]; subst.
  - cbn. repeat split; try lia; intros N; contradiction.
  - rewrite count_underlying_cons. cbn [is_underlying entry_outcome is_some].
    unfold count_granted. cbn [verdicts entry_retry].
    exact (attempts_count this c env _ _ _ _ D).
Qed.

(** ** The order of events *)

Lemma attempts_alternate this c (env : Env) op h res tr :
  Attempts (describe this c) env op h res tr -> alternates true tr = true.
Proof.
  intros D.
  induction D as [h|h x Hx|h x r0 Hx Hret|h x b Hx Hret Hb|h x Hx Hret Hb
                 |h x res tr Hx Hret Hb D IH];
    cbn [alternates]; rewrite ?call_is_underlying; cbn; try reflexivity.
  - destruct b; reflexivity.
  - exact IH.
Qed.

Lemma retry_not_underlying en v : entry_retry en = Some v -> is_underlying en = false.
Proof. destruct en as [X e x]. destruct e; cbn; intros E; try discriminate; reflexivity. Qed.

Lemma alternates_declined_last pre :
  forall call_next en post op,
    alternates call_next (pre ++ en :: post) = true ->
    entry_retry en = Some (op, false) -> post = [].
Proof.
  induction pre as [|e pre IH]; intros call_next en post op A E.
  - cbn [app alternates] in A. destruct call_next.
    + rewrite (retry_not_underlying en _ E) in A. discriminate.
    + rewrite E in A. destruct post; [reflexivity | discriminate].
  - cbn [app alternates] in A. destruct call_next.
    + apply andb_true_iff in A. destruct A as [_ A]. exact (IH _ _ _ _ A E).
    + destruct (entry_retry e) as [[op' [|]]|]; [| |discriminate].
      * exact (IH _ _ _ _ A E).
      * destruct pre; discriminate.
Qed.

(** After [StartOperation], calls of the wrapped accessor and questions to
    the policy take turns, a call first; and a declined retry is final: in
    no run does anything follow a [ShouldRetry] that returned false. *)
Theorem calls_and_verdicts_alternate this c (env : Env) fuel res tr :
  run fuel env (invoke this c) = (res, tr) ->
  alternates true (tl tr) = true /\
  forall pre en post op,
    tr = pre ++ en :: post -> entry_retry en = Some (op, false) -> post = [].
Proof.
  intros E. unfold run in E. apply invoke_CallRun in E.
  inversion E as [|h' op res' tr' Hop D Eh Eres Etr]; subst.
  - split; [reflexivity|]. intros pre en post op T. destruct pre; discriminate.
  - pose proof (attempts_alternate this c env _ _ _ _ D) as A.
    split; [exact A|]. intros pre en post op' T R.
    destruct pre as [|p pre]; inversion T; subst.
    + discriminate R.
    + exact (alternates_declined_last pre true en post op' A R).
Qed.

(** ** What the policy is told *)

Lemma describe_diagnostic this c x o :
  entry_outcome (Ev (at_call (describe this c)) x) = Some o ->
  (at_message (describe this c), at_args (describe this c) x) = diagnostic c (err_of o).
Proof. destruct c; cbn; intros Ho; inversion Ho; reflexivity. Qed.

Lemma call_no_message this c x :
  entry_message (Ev (at_call (describe this c)) x) = None.
Proof. destruct c; reflexivity. Qed.

Lemma attempts_head A (env : Env) op h res en rest :
  Attempts A env op h res (en :: rest) -> exists x, en = Ev (at_call A) x.
Proof. intros D. inversion D; subst; eexists; reflexivity. Qed.

Lemma attempts_diagnosed this c (env : Env) op h res tr :
  Attempts (describe this c) env op h res tr ->
  forall pre en1 en2 post m,
    tr = pre ++ en1 :: en2 :: post ->
    entry_message en2 = Some m ->
    exists o, entry_outcome en1 = Some o /\ m = diagnostic c (err_of o).
Proof.
  intros D.
  induction D as [h|h x Hx|h x r0 Hx Hret|h x b Hx Hret Hb|h x Hx Hret Hb
                 |h x res tr Hx Hret Hb D IH];
    intros pre en1 en2 post m T M; try clear Hx.
  - destruct pre; discriminate.
  - destruct pre as [|? [|? ?]]; discriminate.
  - destruct pre as [|? [|? ?]]; discriminate.
  - destruct pre as [|? [|? [|? ?]]]; try discriminate. inversion T; subst.
    destruct (describe_spec this c x) as (o & Ho & _). exists o. split; [exact Ho|].
    cbn in M. inversion M. apply describe_diagnostic, Ho.
  - destruct pre as [|? [|? [|? ?]]]; try discriminate. inversion T; subst.
    destruct (describe_spec this c x) as (o & Ho & _). exists o. split; [exact Ho|].
    cbn in M. inversion M. apply describe_diagnostic, Ho.
  - destruct pre as [|p1 [|p2 pre]]; inversion T; subst.
    + destruct (describe_spec this c x) as (o & Ho & _). exists o. split; [exact Ho|].
      cbn in M. inversion M. apply describe_diagnostic, Ho.
    + destruct (attempts_head _ env _ _ _ _ _ D) as [x' ->].
      rewrite call_no_message in M. discriminate.
    + exact (IH pre en1 en2 post m eq_refl M).
Qed.

(** Whenever the policy is asked, the entry right before is the call of
    the wrapped accessor that just failed, and [ShouldRetry] receives the
    format of the method with the path (and mode) of the caller and the
    error of that very call. *)
Theorem policy_is_told_the_last_error this c (env : Env) fuel res tr :
  run fuel env (invoke this c) = (res, tr) ->
  forall pre en1 en2 post m,
    tr = pre ++ en1 :: en2 :: post ->
    entry_message en2 = Some m ->
    exists o, entry_outcome en1 = Some o /\ m = diagnostic c (err_of o).
Proof.
  intros E. unfold run in E. apply invoke_CallRun in E.
  inversion E as [|h' op res' tr' Hop D Eh Eres Etr]; subst;
    intros pre en1 en2 post m T M.
  - destruct pre; discriminate.
  - destruct pre as [|p pre]; inversion T; subst.
    + destruct (attempts_head _ env _ _ _ _ _ D) as [x' ->].
      rewrite call_no_message in M. discriminate.
    + exact (attempts_diagnosed this c env _ _ _ _ D pre en1 en2 post m eq_refl M).
Qed.

Lemma describe_verbs this c x :
  count_verbs (at_message (describe this c)) = List.length (at_args (describe this c) x).
Proof. destruct c; reflexivity. Qed.

(** Every [ShouldRetry] of every method is given exactly as many
    arguments as its format has verbs. *)
Theorem format_matches_arguments this c (env : Env) fuel en message args :
  In en (snd (run fuel env (invoke this c))) ->
  entry_message en = Some (message, args) ->
  count_verbs message = List.length args.
Proof.
  destruct (run fuel env (invoke this c)) as [res tr] eqn:E. cbn [snd].
  unfold run in E. apply invoke_CallRun in E.
  inversion E as [|h' op res' tr' Hop D Eh Eres Etr]; subst; [intros []|].
  intros [<-|I] M; [discriminate M|].
  apply Attempts_entries in D. rewrite Forall_forall in D.
  destruct (D en I) as [[x ->]|(x & b & ->)].
  - rewrite call_no_message in M. discriminate.
  - cbn in M. inversion M. apply describe_verbs.
Qed.

(** ** When the policy is asked *)

Lemma describe_asks this c x o :
  entry_outcome (Ev (at_call (describe this c)) x) = Some o ->
  at_return (describe this c) x = None <-> asks_policy c o = true.
Proof.
  unfold asks_policy.
  destruct c; cbn; intros Ho; inversion Ho; subst o; cbn.
  1, 7: destruct x as [e|]; destruct (IsSuccessOrBenignError _); cbn;
    split; intros E; first [reflexivity | discriminate].
  4, 5: destruct x as [v [e|]]; cbn; destruct (IsSuccessOrBenignError _); cbn;
    split; intros E; first [reflexivity | discriminate].
  - destruct x as [v [e|]]; cbn; [destruct (IsSuccessOrBenignError _); cbn|];
      split; intros E; first [reflexivity | discriminate].
  - destruct x as [[v size] [e|]]; cbn; [destruct (IsSuccessOrBenignError _); cbn|];
      split; intros E; first [reflexivity | discriminate].
  - destruct x as [v [e|]]; cbn; [destruct (IsSuccessOrBenignError _); cbn|];
      split; intros E; first [reflexivity | discriminate].
Qed.

Lemma attempts_rule this c (env : Env) op h res tr :
  Attempts (describe this c) env op h res tr ->
  forall o vs, In (o, vs) (attempts_of tr) ->
    List.length vs <= (if asks_policy c o then 1 else 0) /\
    (res <> None -> List.length vs = if asks_policy c o then 1 else 0).
Proof.
  intros D.
  induction D as [h|h x Hx|h x r0 Hx Hret|h x b Hx Hret Hb|h x Hx Hret Hb
                 |h x res tr Hx Hret Hb D IH];
    try (destruct (describe_spec this c x) as (o & Ho & _);
         pose proof (describe_asks this c x o Ho) as Hask;
         rewrite (attempts_of_call this c x o _ Ho)).
  - intros o vs [].
  - intros o' vs [E|[]]. inversion E; subst o' vs. cbn.
    split; [lia | intros N; contradiction].
  - intros o' vs [E|[]]. inversion E; subst o' vs. cbn.
    destruct (asks_policy c o); [|split; [lia | reflexivity]].
    destruct Hask as [_ Hask]. rewrite (Hask eq_refl) in Hret. discriminate.
  - intros o' vs [E|[]]. inversion E; subst o' vs. cbn.
    destruct Hask as [Hask _]. rewrite (Hask Hret).
    split; [lia | reflexivity].
  - intros o' vs [E|[]]. inversion E; subst o' vs. cbn.
    destruct Hask as [Hask _]. rewrite (Hask Hret).
    split; [lia | reflexivity].
  - destruct (attempts_discipline this c env _ _ _ _ D) as [V _].
    intros o' vs [E|I].
    + inversion E; subst o' vs. cbn. rewrite V.
      destruct Hask as [Hask _]. rewrite (Hask Hret). cbn.
      split; [lia | reflexivity].
    + cbn [attempts_of entry_outcome ask] in I. exact (IH o' vs I).
Qed.

(** The exact rule of the loop.  After a call of the wrapped accessor the
    policy is asked once if the error is non-nil and not exempted by the
    classifier, and not at all otherwise, with one difference between the
    methods: the three that open a stream never ask after a [nil] error,
    having tested for it themselves, while the other four leave even a
    [nil] error to the classifier. *)
Theorem policy_asked_by_rule this c (env : Env) fuel res tr :
  run fuel env (invoke this c) = (res, tr) ->
  forall o vs, In (o, vs) (attempts_of tr) ->
    List.length vs <= (if asks_policy c o then 1 else 0) /\
    (res <> None -> List.length vs = if asks_policy c o then 1 else 0).
Proof.
  intros E. unfold run in E. apply invoke_CallRun in E.
  inversion E as [|h' op res' tr' Hop D Eh Eres Etr]; subst.
  - intros o vs [].
  - exact (attempts_rule this c env _ _ _ _ D).
Qed.

(** ** A loop without a bound of its own *)

Lemma attempts_never_return this c (env : Env) op h res tr :
  accessor_behaves env (fun _ o => fails_retryably o = true) ->
  policy_behaves env (fun _ b => b = true) ->
  Attempts (describe this c) env op h res tr -> res = None.
Proof.
  intros Hacc Hpol D.
  induction D as [h|h x Hx|h x r0 Hx Hret|h x b Hx Hret Hb|h x Hx Hret Hb
                 |h x res tr Hx Hret Hb D IH]; try reflexivity.
  - exfalso. destruct (describe_spec this c x) as (o & Ho & _).
    assert (F : fails_retryably o = true) by (subst x; exact (Hacc h _ _ o Ho)).
    rewrite (retryable_asks this c x Ho F) in Hret. discriminate.
  - exfalso. unfold ask in Hb. rewrite Hpol in Hb. discriminate.
  - exact IH.
Qed.

Lemma loop_calls_grow this c (env : Env) op :
  accessor_behaves env (fun _ o => fails_retryably o = true) ->
  policy_behaves env (fun _ b => b = true) ->
  forall n h,
    count_underlying
      (snd (exec (3 * n) env h (ITree.iter (retry_body (describe this c) op) tt))) = n.
Proof.
  intros Hacc Hpol. induction n as [|n IH]; intros h; [reflexivity|].
  replace (3 * S n) with (S (S (S (3 * n)))) by lia.
  rewrite exec_loop_S. cbv zeta.
  set (x := env h _ (at_call (describe this c))).
  destruct (describe_spec this c x) as (o & Ho & _).
  rewrite (retryable_asks this c x Ho (Hacc h _ _ o Ho)).
  assert (Hb : env (h ++ [Ev (at_call (describe this c)) x]) bool
                 (ask (describe this c) op x) = true) by apply Hpol.
  rewrite Hb.
  specialize (IH ((h ++ [Ev (at_call (describe this c)) x])
                    ++ [Ev (ask (describe this c) op x) true])).
  destruct (exec (3 * n) env _ _) as [res tr]. cbn [snd] in *.
  destruct (count_attempt this c x op true tr) as [-> _]. rewrite IH. reflexivity.
Qed.

(** The loop has no bound of its own.  If every call of the wrapped
    accessor fails with a retryable error and the policy grants every
    retry, no method ever returns, and the number of calls of the wrapped
    accessor grows beyond every number. *)
Theorem never_returns_while_granted this c (env : Env) :
  accessor_behaves env (fun _ o => fails_retryably o = true) ->
  policy_behaves env (fun _ b => b = true) ->
  (forall fuel, fst (run fuel env (invoke this c)) = None) /\
  (forall n, exists fuel, count_underlying (snd (run fuel env (invoke this c))) = n).
Proof.
  intros Hacc Hpol. split.
  - intros fuel. destruct (run fuel env (invoke this c)) as [res tr] eqn:E. cbn [fst].
    unfold run in E. apply invoke_CallRun in E.
    inversion E as [|h' op res' tr' Hop D Eh Eres Etr]; subst; [reflexivity|].
    exact (attempts_never_return this c env _ _ _ _ Hacc Hpol D).
  - intros n. exists (S (3 * n)). unfold run.
    rewrite invoke_loop, exec_retry_loop_S. cbv zeta.
    pose proof (loop_calls_grow this c env
                  (env [] _ (StartOperation (RetryPolicy this))) Hacc Hpol n
                  ([] ++ [Ev (StartOperation (RetryPolicy this))
                            (env [] _ (StartOperation (RetryPolicy this)))])) as G.
    destruct (exec (3 * n) env _ _) as [res tr]. cbn [snd] in *.
    rewrite count_underlying_cons. exact G.
Qed.

(** ** The constructor *)

(** An accessor built by [NewFaultTolerantHdfsAccessor impl retryPolicy]
    calls no accessor but [impl] and starts operations on no policy but
    [retryPolicy]. *)
Theorem constructor_wires_collaborators impl retryPolicy c (env : Env) fuel en :
  In en (snd (run fuel env (invoke (NewFaultTolerantHdfsAccessor impl retryPolicy) c))) ->
  (forall a c', entry_call en = Some (a, c') -> a = impl) /\
  (forall p op, entry_started en = Some (p, op) -> p = retryPolicy).
Proof.
  set (this := NewFaultTolerantHdfsAccessor impl retryPolicy).
  destruct (run fuel env (invoke this c)) as [res tr] eqn:E. cbn [snd].
  unfold run in E. apply invoke_CallRun in E.
  inversion E as [|h' op res' tr' Hop D Eh Eres Etr]; subst; [intros []|].
  intros [<-|I].
  - split; [discriminate|]. intros p op E'. inversion E'. reflexivity.
  - apply Attempts_entries in D. rewrite Forall_forall in D.
    destruct (D en I) as [[x ->]|(x & b & ->)].
    + rewrite call_entry, call_not_start. split; [|discriminate].
      intros a c' E'. inversion E'. reflexivity.
    + split; discriminate.
Qed.

End Beyond.

(* ===================================================================== *)
(** * The further properties at work in the concrete setting *)
(* ===================================================================== *)

Section MoreWitnesses.

Import Example.
Existing Instance collaborators.

(** [Stat] gives up after one granted retry: the time-out it returns is
    the one of its second call. *)
Lemma returned_error_is_last_error_witness :
  exists o,
    last_outcome (snd (run 20 (always_failing "timeout" 1) (invoke this (CallStat "/a"))))
    = Some o /\
    err_of (OutAttrs 5 (Some "timeout")) = err_of o.
Proof.
  exact (returned_error_is_last_error this (CallStat "/a") (always_failing "timeout" 1) 20
           (OutAttrs 5 (Some "timeout"))
           (snd (run 20 (always_failing "timeout" 1) (invoke this (CallStat "/a"))))
           eq_refl).
Defined.

(** [Stat("/missing")]: the attributes that came with "not found" reach
    the caller. *)
Lemma plain_methods_return_last_tuple_witness :
  last_outcome (snd (run 20 Stubborn.missing (invoke this (CallStat "/missing"))))
  = Some (OutAttrs 5 (Some "not found")).
Proof.
  exact (plain_methods_return_last_tuple this (CallStat "/missing") Stubborn.missing 20
           (OutAttrs 5 (Some "not found"))
           (snd (run 20 Stubborn.missing (invoke this (CallStat "/missing"))))
           eq_refl eq_refl).
Defined.

(** A successful [OpenRead] and a failed [OpenWrite]. *)
Lemma stream_is_nil_iff_error_witness :
  (fst (returned (ReaderNil, None) (run 20 flaky (OpenRead this "/a"))) = ReaderNil
   <-> (None : error) <> None) /\
  (fst (returned (WriterOther 0, None)
          (run 20 (always_failing "timeout" 1) (OpenWrite this "/a"))) = WriterNil
   <-> Some "timeout" <> None).
Proof.
  split.
  - exact (proj1 (stream_is_nil_iff_error this "/a" flaky 20)
             (fst (returned (ReaderNil, None) (run 20 flaky (OpenRead this "/a"))))
             None
             (snd (run 20 flaky (OpenRead this "/a")))
             eq_refl).
  - exact (proj2 (stream_is_nil_iff_error this "/a" (always_failing "timeout" 1) 20)
             (fst (returned (WriterOther 0, None)
                     (run 20 (always_failing "timeout" 1) (OpenWrite this "/a"))))
             (Some "timeout")
             (snd (run 20 (always_failing "timeout" 1) (OpenWrite this "/a")))
             eq_refl).
Defined.

(** [Mkdir] failing twice, observed after it returned and cut short. *)
Lemma calls_are_grants_plus_one_witness :
  (count_granted (snd (run 20 flaky (invoke this (CallMkdir "/x" 493%N))))
   <= count_underlying (snd (run 20 flaky (invoke this (CallMkdir "/x" 493%N)))) /\
   count_underlying (snd (run 20 flaky (invoke this (CallMkdir "/x" 493%N))))
   <= S (count_granted (snd (run 20 flaky (invoke this (CallMkdir "/x" 493%N))))) /\
   (fst (run 20 flaky (invoke this (CallMkdir "/x" 493%N))) <> None ->
    count_underlying (snd (run 20 flaky (invoke this (CallMkdir "/x" 493%N))))
    = S (count_granted (snd (run 20 flaky (invoke this (CallMkdir "/x" 493%N))))))) /\
  count_underlying (snd (run 4 flaky (invoke this (CallMkdir "/x" 493%N))))
  <= S (count_granted (snd (run 4 flaky (invoke this (CallMkdir "/x" 493%N))))).
Proof.
  split.
  - exact (calls_are_grants_plus_one this (CallMkdir "/x" 493%N) flaky 20
             (fst (run 20 flaky (invoke this (CallMkdir "/x" 493%N))))
             (snd (run 20 flaky (invoke this (CallMkdir "/x" 493%N))))
             (surjective_pairing _)).
  - exact (proj1 (proj2 (calls_are_grants_plus_one this (CallMkdir "/x" 493%N) flaky 4
             (fst (run 4 flaky (invoke this (CallMkdir "/x" 493%N))))
             (snd (run 4 flaky (invoke this (CallMkdir "/x" 493%N))))
             (surjective_pairing _)))).
Defined.

(** [ReadDir] against an accessor that always times out, two retries
    granted. *)
Lemma calls_and_verdicts_alternate_witness :
  alternates true
    (tl (snd (run 20 (always_failing "timeout" 2) (invoke this (CallReadDir "/d")))))
  = true /\
  forall pre en post op,
    snd (run 20 (always_failing "timeout" 2) (invoke this (CallReadDir "/d")))
    = pre ++ en :: post ->
    entry_retry en = Some (op, false) -> post = [].
Proof.
  exact (calls_and_verdicts_alternate this (CallReadDir "/d") (always_failing "timeout" 2) 20
           (fst (run 20 (always_failing "timeout" 2) (invoke this (CallReadDir "/d"))))
           (snd (run 20 (always_failing "timeout" 2) (invoke this (CallReadDir "/d"))))
           (surjective_pairing _)).
Defined.

(** The first [ShouldRetry] of [Mkdir("/x", 0755)]. *)
Lemma policy_is_told_the_last_error_witness :
  exists o,
    entry_outcome (Ev (ImplMkdir 7 "/x" 493%N) (Some "timeout")) = Some o /\
    ("[%s] Mkdir %s: %s", [ArgString "/x"; ArgMode 493%N; ArgError (Some "timeout")])
    = diagnostic (CallMkdir "/x" 493%N) (err_of o).
Proof.
  apply (@policy_is_told_the_last_error collaborators this (CallMkdir "/x" 493%N) flaky 20
           (fst (run 20 flaky (invoke this (CallMkdir "/x" 493%N))))
           (snd (run 20 flaky (invoke this (CallMkdir "/x" 493%N))))
           (surjective_pairing _)
           [Ev (@StartOperation collaborators 3) 100]
           (Ev (@ImplMkdir collaborators 7 "/x" 493%N) (Some "timeout"))
           (Ev (@ShouldRetry collaborators 100 "[%s] Mkdir %s: %s"
                  [@ArgString collaborators "/x"; @ArgMode collaborators 493%N;
                   @ArgError collaborators (Some "timeout")]) true)
           (skipn 3 (snd (run 20 flaky (invoke this (CallMkdir "/x" 493%N)))))).
  - reflexivity.
  - reflexivity.
Defined.

(** The same [ShouldRetry]: three verbs, three arguments. *)
Lemma format_matches_arguments_witness :
  count_verbs "[%s] Mkdir %s: %s"
  = List.length [ArgString "/x"; ArgMode 493%N; ArgError (Some "timeout")].
Proof.
  apply (@format_matches_arguments collaborators this (CallMkdir "/x" 493%N) flaky 20
           (Ev (@ShouldRetry collaborators 100 "[%s] Mkdir %s: %s"
                  [@ArgString collaborators "/x"; @ArgMode collaborators 493%N;
                   @ArgError collaborators (Some "timeout")]) true)).
  - right. right. left. reflexivity.
  - reflexivity.
Defined.

(** The first and the last attempt of [OpenRead("/a")] succeeding on the
    third: a time-out with one verdict, a success with none. *)
Lemma policy_asked_by_rule_witness :
  (List.length [true]
   <= (if asks_policy (CallOpenRead "/a") (OutReader (ReaderOther 11) (Some "timeout"))
       then 1 else 0) /\
   (fst (run 20 flaky (invoke this (CallOpenRead "/a"))) <> None ->
    List.length [true]
    = if asks_policy (CallOpenRead "/a") (OutReader (ReaderOther 11) (Some "timeout"))
      then 1 else 0)) /\
  (List.length (@nil bool)
   <= (if asks_policy (CallOpenRead "/a") (OutReader (ReaderOther 11) None)
       then 1 else 0) /\
   (fst (run 20 flaky (invoke this (CallOpenRead "/a"))) <> None ->
    List.length (@nil bool)
    = if asks_policy (CallOpenRead "/a") (OutReader (ReaderOther 11) None)
      then 1 else 0)).
Proof.
  pose proof (@policy_asked_by_rule collaborators this (CallOpenRead "/a") flaky 20
                (fst (run 20 flaky (invoke this (CallOpenRead "/a"))))
                (snd (run 20 flaky (invoke this (CallOpenRead "/a"))))
                (surjective_pairing _)) as Rule.
  split.
  - apply Rule. left. reflexivity.
  - apply Rule. right. right. left. reflexivity.
Defined.

(** [EnsureConnected] against a name node that never answers, under a
    policy that never gives up. *)
Lemma never_returns_while_granted_witness :
  (forall fuel, fst (run fuel Stubborn.env (invoke this CallEnsureConnected)) = None) /\
  (forall n, exists fuel,
      count_underlying (snd (run fuel Stubborn.env (invoke this CallEnsureConnected))) = n).
Proof.
  apply (never_returns_while_granted this CallEnsureConnected Stubborn.env).
  - intros h X e o. unfold Stubborn.env.
    destruct e; cbn; intros E; try discriminate; inversion E; reflexivity.
  - intros h op message args. reflexivity.
Defined.

(** The first call made by an accessor built from accessor 7 and policy 3. *)
Lemma constructor_wires_collaborators_witness :
  (forall a c', entry_call (Ev (ImplStat 7 "/a") (5, Some "timeout")) = Some (a, c') ->
                a = 7) /\
  (forall p op, entry_started (Ev (ImplStat 7 "/a") (5, Some "timeout")) = Some (p, op) ->
                p = 3).
Proof.
  apply (@constructor_wires_collaborators collaborators 7 3 (CallStat "/a") flaky 20
           (Ev (@ImplStat collaborators 7 "/a") (5, Some "timeout"))).
  right. left. reflexivity.
Defined.

End MoreWitnesses.
